(** * reuler-ai: chunking, retrieval, caching and answer pipeline

    A shallow embedding of the Python service under [ai-service/] and the
    properties of its retrieval and caching core.

    Conventions of the embedding:
    - a Python [str] is a list of characters ([list ascii], code points
      below 256), so that [len], slicing and concatenation are the list
      operations;
    - a Python [int] is a [Z];
    - a Python [dict] with string keys is a [gmap string _];
    - a Python [float] that only goes through comparisons, [min] and sums
      and products of a few literals is read as the rational it denotes
      ([Q]);
    - code that raises returns an explicit error value;
    - an instant of [datetime.utcnow()] and a [timedelta] are numbers of
      microseconds. *)

From Stdlib Require Import ZArith QArith Qminmax Lqa Ascii String List Lia.
From stdpp Require Import base option list gmap strings pretty sorting.

#[local] Open Scope Z_scope.
#[local] Open Scope list_scope.

(** ** Python strings *)

Module PyStr.

Definition str := list ascii.

(** A string literal of the source. *)
Definition lit (s : string) : str := list_ascii_of_string s.

(** The line feed character. *)
Definition newline : ascii := "010"%char.

(** [len(s)] *)
Definition len (s : str) : Z := Z.of_nat (length s).

(** [c.isspace()] on code points below 256: TAB, LF, VT, FF, CR, the
    four separators FS, GS, RS and US, SPACE, NEL and NBSP. *)
Definition isspace (c : ascii) : bool :=
  let n := nat_of_ascii c in
  ((9 <=? n) && (n <=? 13))%nat || ((28 <=? n) && (n <=? 32))%nat
  || (n =? 133)%nat || (n =? 160)%nat.

Fixpoint lstrip (s : str) : str :=
  match s with
  | [] => []
  | c :: s' => if isspace c then lstrip s' else s
  end.

Definition rstrip (s : str) : str := rev (lstrip (rev s)).

(** [s.strip()] *)
Definition strip (s : str) : str := rstrip (lstrip s).

Fixpoint starts_with (p s : str) : bool :=
  match p, s with
  | [], _ => true
  | _ :: _, [] => false
  | a :: p', b :: s' => if Ascii.eqb a b then starts_with p' s' else false
  end.

(** The scan of [s.split(sep)] for a non-empty [sep]: [cur] is the piece
    being read and [skip] the number of characters of a matched
    separator still to pass over. *)
Fixpoint split_go (sep : str) (skip : nat) (cur s : str) : list str :=
  match s with
  | [] => [cur]
  | c :: s' =>
      match skip with
      | S k => split_go sep k cur s'
      | O =>
          if starts_with sep s
          then cur :: split_go sep (length sep - 1) [] s'
          else split_go sep 0 (cur ++ [c]) s'
      end
  end.

(** [s.split(sep)], [sep] not empty. *)
Definition split (sep s : str) : list str := split_go sep 0 [] s.

(** [list(s)]: the one-character strings of [s]. *)
Definition chars (s : str) : list str := map (fun c => [c]) s.

(** [s[i:]] for an integer [i] of either sign. *)
Definition slice_from (i : Z) (s : str) : str :=
  if i <? 0 then drop (Z.to_nat (len s + i)) s else drop (Z.to_nat i) s.

(** [s[:j]] for an integer [j] of either sign. *)
Definition slice_to (j : Z) (s : str) : str :=
  if j <? 0 then take (Z.to_nat (len s + j)) s else take (Z.to_nat j) s.

(** Truth value of a string: non-empty. *)
Definition truthy (s : str) : bool :=
  match s with [] => false | _ :: _ => true end.

(** [sep.join(parts)] *)
Fixpoint join (sep : str) (parts : list str) : str :=
  match parts with
  | [] => []
  | [p] => p
  | p :: rest => p ++ sep ++ join sep rest
  end.

(** The string does not start with a whitespace character. *)
Definition clean_start (s : str) : Prop :=
  match s with
  | [] => True
  | c :: _ => isspace c = false
  end.

(** Every character of the string is a whitespace character. *)
Definition all_space (s : str) : Prop := Forall (fun c => isspace c = true) s.

End PyStr.

(** ** [src/services/document_processor.py]: the recursive chunker *)

Module DocumentProcessor.
Import PyStr.

(** The three attributes set by [DocumentProcessor.__init__]. *)
Record config := Config {
  chunk_size : Z;
  chunk_overlap : Z;
  min_chunk_size : Z
}.

(** The default arguments of [__init__]. *)
Definition default_config : config := Config 1000 200 100.

(** Outcome of a call: a value, the [IndexError] of [separators[0]] on an
    empty list, or recursion cut off by the fuel of the model. *)
Inductive res (A : Type) : Type :=
| Ret (a : A)
| IndexError
| NoFuel.
Arguments Ret {A} a.
Arguments IndexError {A}.
Arguments NoFuel {A}.

#[export] Instance res_bind : MBind res := fun A B k m =>
  match m with
  | Ret a => k a
  | IndexError => IndexError
  | NoFuel => NoFuel
  end.

(** The hierarchy used when [separators is None]. *)
Definition DEFAULT_SEPARATORS : list str :=
  [[newline; newline]; [newline]; lit ". "; lit " "; lit ""].

(** [separators[1:] if len(separators) > 1 else []] *)
Definition new_separators_of (separators : list str) : list str :=
  if (1 <? length separators)%nat then tl separators else [].

(** [text.split(separator) if separator else list(text)] *)
Definition splits_of (separator text : str) : list str :=
  if truthy separator then split separator text else chars text.

(** [chunks.append(current_chunk.strip())] under its length guard. *)
Definition flush (cfg : config) (chunks : list str) (current_chunk : str)
  : list str :=
  if min_chunk_size cfg <=? len current_chunk
  then chunks ++ [strip current_chunk]
  else chunks.

(** The overlap carried into the next buffer:
    [current_chunk[-self.chunk_overlap:] if len(current_chunk) >
    self.chunk_overlap else current_chunk]. *)
Definition overlap_of (cfg : config) (current_chunk : str) : str :=
  if chunk_overlap cfg <? len current_chunk
  then slice_from (- chunk_overlap cfg) current_chunk
  else current_chunk.

Section Loop.
Variable cfg : config.
(** The recursive call [self._recursive_split(piece, new_separators)]. *)
Variable rec : str -> list str -> res (list str).
Variable separator : str.
Variable new_separators : list str.

(** One iteration of [for split in splits], on the pair
    [(chunks, current_chunk)]. *)
Definition loop_body (st : list str * str) (split : str)
  : res (list str * str) :=
  let '(chunks, current_chunk) := st in
  let piece := if truthy separator then split ++ separator else split in
  if chunk_size cfg <? len current_chunk + len piece then
    let chunks := flush cfg chunks current_chunk in
    if (chunk_size cfg <? len piece) && bool_decide (new_separators <> [])
    then
      sub_chunks ← rec piece new_separators;
      Ret (chunks ++ sub_chunks, [])
    else
      Ret (chunks, overlap_of cfg current_chunk ++ piece)
  else
    Ret (chunks, current_chunk ++ piece).

Fixpoint loop (st : list str * str) (splits : list str)
  : res (list str * str) :=
  match splits with
  | [] => Ret st
  | split :: splits' =>
      st' ← loop_body st split;
      loop st' splits'
  end.
End Loop.

(** [DocumentProcessor._recursive_split]; [fuel] bounds the depth of the
    Python recursion. *)
Fixpoint _recursive_split (cfg : config) (fuel : nat) (text : str)
    (separators : list str) : res (list str) :=
  match fuel with
  | O => NoFuel
  | S fuel' =>
      match separators with
      | [] => IndexError
      | separator :: _ =>
          let new_separators := new_separators_of separators in
          let splits := splits_of separator text in
          st ← loop cfg (_recursive_split cfg fuel') separator
                    new_separators ([], []) splits;
          Ret (flush cfg (fst st) (snd st))
      end
  end.

(** The call [self._recursive_split(content)] of [_chunk_document]:
    [separators] is [None] and the default hierarchy is used. *)
Definition split_text (cfg : config) (text : str) : res (list str) :=
  _recursive_split cfg (length DEFAULT_SEPARATORS) text DEFAULT_SEPARATORS.

(** The guard of [_chunk_document] on the strings returned for a page:
    [if len(chunk_content) < self.min_chunk_size: continue]. *)
Definition kept_contents (cfg : config) (page_chunks : list str) : list str :=
  filter (fun c => ~ len c < min_chunk_size cfg) page_chunks.

(** The buffers a call accumulates: the successive values of
    [current_chunk] that reach one of the two tests
    [len(current_chunk) >= self.min_chunk_size] (lines 199 and 215), in
    the order of the tests, those of a recursive call at the place of the
    call.  The loop is the loop of [_recursive_split]: where that one
    appends [current_chunk.strip()] under the test, this one records
    [current_chunk] itself, whatever its length. *)
Section Buffers.
Variable cfg : config.
(** The buffers of the recursive call on [piece]. *)
Variable rec : str -> list str -> res (list str).
Variable separator : str.
Variable new_separators : list str.

Definition buffers_loop_body (st : list str * str) (split : str)
  : res (list str * str) :=
  let '(buffers, current_chunk) := st in
  let piece := if truthy separator then split ++ separator else split in
  if chunk_size cfg <? len current_chunk + len piece then
    let buffers := buffers ++ [current_chunk] in
    if (chunk_size cfg <? len piece) && bool_decide (new_separators <> [])
    then
      sub_buffers ← rec piece new_separators;
      Ret (buffers ++ sub_buffers, [])
    else
      Ret (buffers, overlap_of cfg current_chunk ++ piece)
  else
    Ret (buffers, current_chunk ++ piece).

Fixpoint buffers_loop (st : list str * str) (splits : list str)
  : res (list str * str) :=
  match splits with
  | [] => Ret st
  | split :: splits' =>
      st' ← buffers_loop_body st split;
      buffers_loop st' splits'
  end.
End Buffers.

(** The accumulated buffers of [_recursive_split(text, separators)]; the
    last one is the remaining content tested after the loop. *)
Fixpoint accumulated_buffers (cfg : config) (fuel : nat) (text : str)
    (separators : list str) : res (list str) :=
  match fuel with
  | O => NoFuel
  | S fuel' =>
      match separators with
      | [] => IndexError
      | separator :: _ =>
          let new_separators := new_separators_of separators in
          let splits := splits_of separator text in
          st ← buffers_loop cfg (accumulated_buffers cfg fuel') separator
                            new_separators ([], []) splits;
          Ret (fst st ++ [snd st])
      end
  end.

(** The accumulated buffers of the call [self._recursive_split(content)]. *)
Definition split_text_buffers (cfg : config) (text : str) : res (list str) :=
  accumulated_buffers cfg (length DEFAULT_SEPARATORS) text DEFAULT_SEPARATORS.

(** What the two guarded [chunks.append(current_chunk.strip())] make of a
    list of accumulated buffers: the buffers of at least [min_chunk_size]
    characters, stripped. *)
Definition returned_of (cfg : config) (buffers : list str) : list str :=
  strip <$> filter (fun buf => min_chunk_size cfg <= len buf) buffers.

(** [f] applied to the value of an outcome. *)
Definition res_map {A B} (f : A -> B) (r : res A) : res B :=
  match r with
  | Ret a => Ret (f a)
  | IndexError => IndexError
  | NoFuel => NoFuel
  end.

End DocumentProcessor.

(** ** Values stored in chunk dictionaries *)

Module PyVal.

(** The scalar values a chunk dictionary carries under its keys.  Python's
    [==] on them is equality of the constructors; a nested dictionary
    such as a chunk's metadata is read through an injective encoding
    into [VStr], which keeps [==] on whole chunks. *)
Inductive value :=
| VNone
| VInt (n : Z)
| VStr (s : string).

#[export] Instance value_eq_dec : EqDecision value.
Proof. solve_decision. Defined.

Definition value_enc (v : value) : unit + (Z + string) :=
  match v with
  | VNone => inl tt
  | VInt n => inr (inl n)
  | VStr s => inr (inr s)
  end.

Definition value_dec (x : unit + (Z + string)) : value :=
  match x with
  | inl _ => VNone
  | inr (inl n) => VInt n
  | inr (inr s) => VStr s
  end.

#[export] Instance value_countable : Countable value.
Proof.
refine (inj_countable' value_enc value_dec _).
intros []; reflexivity.
Defined.

(** A chunk as the vector store returns it: [Dict[str, Any]]. *)
Abbreviation chunk := (gmap string value).

(** [d.get(k, dflt)] *)
Definition get (d : chunk) (k : string) (dflt : value) : value :=
  default dflt (d !! k).

End PyVal.

(** ** [src/services/document_processor.py]: the chunks of a document *)

Module DocumentChunker.
Import PyStr PyVal DocumentProcessor.

(** An entry of [pages_content], as [_extract_text] builds it. *)
Record page := Page {
  page_number : Z;
  content : str
}.

(** The dataclass [DocumentChunk]; [chunk_index] counts from 0. *)
Record DocumentChunk := Chunk {
  chunk_id : string;
  document_id : string;
  chunk_content : str;
  chunk_page : Z;
  chunk_index : nat;
  metadata : gmap string value
}.

(** The [DocumentChunk(...)] built for the string [chunk_content] of page
    [page_num] at the counter [chunk_index]; the identifier is
    [f"{document_id}_chunk_{chunk_index}"] and the metadata
    [{**base_metadata, "page": page_num, "chunk_index": chunk_index}]. *)
Definition make_chunk (document_id : string) (base_metadata : gmap string value)
    (page_num : Z) (chunk_index : nat) (chunk_content : str) : DocumentChunk :=
  Chunk (document_id +:+ "_chunk_" +:+ pretty chunk_index)
        document_id chunk_content page_num chunk_index
        (<["chunk_index" := VInt (Z.of_nat chunk_index)]>
           (<["page" := VInt page_num]> base_metadata)).

(** [for chunk_content in page_chunks], on the pair
    [(chunks, chunk_index)]. *)
Fixpoint add_page_chunks (cfg : config) (document_id : string)
    (base_metadata : gmap string value) (page_num : Z)
    (page_chunks : list str) (st : list DocumentChunk * nat)
  : list DocumentChunk * nat :=
  match page_chunks with
  | [] => st
  | chunk_content :: rest =>
      if len chunk_content <? min_chunk_size cfg
      then add_page_chunks cfg document_id base_metadata page_num rest st
      else
        let chunk := make_chunk document_id base_metadata page_num (snd st)
                                chunk_content in
        add_page_chunks cfg document_id base_metadata page_num rest
                        (fst st ++ [chunk], S (snd st))
  end.

(** [for page_info in pages_content] *)
Fixpoint chunk_pages (cfg : config) (document_id : string)
    (base_metadata : gmap string value) (pages : list page)
    (st : list DocumentChunk * nat) : res (list DocumentChunk * nat) :=
  match pages with
  | [] => Ret st
  | page_info :: rest =>
      page_chunks ← split_text cfg (content page_info);
      chunk_pages cfg document_id base_metadata rest
        (add_page_chunks cfg document_id base_metadata
           (page_number page_info) page_chunks st)
  end.

(** [DocumentProcessor._chunk_document] *)
Definition _chunk_document (cfg : config) (pages_content : list page)
    (document_id : string) (base_metadata : gmap string value)
  : res (list DocumentChunk) :=
  st ← chunk_pages cfg document_id base_metadata pages_content ([], 0%nat);
  Ret (fst st).

(** What the document chunker guarantees of the chunk at position [i]. *)
Definition well_numbered (document_id : string) (i : nat) (c : DocumentChunk)
  : Prop :=
  chunk_index c = i /\
  chunk_id c = (document_id +:+ "_chunk_" +:+ pretty i)%string /\
  document_id = DocumentChunker.document_id c /\
  metadata c !! "chunk_index" = Some (VInt (Z.of_nat i)) /\
  metadata c !! "page" = Some (VInt (chunk_page c)).

End DocumentChunker.

(** ** [src/agents/retrieval_agent.py]: deduplication and reranking *)

Module SrcRetrievalAgent.
Import PyStr PyVal.

(** [self.rerank_top_k = 5] *)
Definition rerank_top_k : nat := 5.

(** [chunk.get("chunk_id", chunk.get("id", ""))] *)
Definition chunk_key (c : chunk) : value :=
  get c "chunk_id" (get c "id" (VStr "")).

(** The loop of [_deduplicate_chunks] on the pair [(seen, unique)]. *)
Fixpoint dedup_loop (seen : gset value) (unique : list chunk)
    (chunks : list chunk) : list chunk :=
  match chunks with
  | [] => unique
  | c :: rest =>
      let chunk_id := chunk_key c in
      if decide (chunk_id ∈ seen)
      then dedup_loop seen unique rest
      else dedup_loop ({[chunk_id]} ∪ seen) (unique ++ [c]) rest
  end.

(** [RetrievalAgent._deduplicate_chunks] *)
Definition _deduplicate_chunks (chunks : list chunk) : list chunk :=
  dedup_loop ∅ [] chunks.

(** Decimal digit of a character. *)
Definition digit_of (c : ascii) : option Z :=
  let n := Z.of_nat (nat_of_ascii c) in
  if (48 <=? n) && (n <=? 57) then Some (n - 48) else None.

(** The digits of an [int] literal: decimal digits, single underscores
    allowed between two digits. *)
Fixpoint digits_go (acc : Z) (after_digit : bool) (s : str) : option Z :=
  match s with
  | [] => if after_digit then Some acc else None
  | c :: s' =>
      if Ascii.eqb c "_"%char
      then (if after_digit then digits_go acc false s' else None)
      else match digit_of c with
           | Some d => digits_go (10 * acc + d) true s'
           | None => None
           end
  end.

(** [int(s)] for a string: surrounding whitespace, an optional sign, the
    digits; [None] is the [ValueError]. *)
Definition py_int (s : str) : option Z :=
  match strip s with
  | c :: r =>
      if Ascii.eqb c "+"%char then digits_go 0 false r
      else if Ascii.eqb c "-"%char then Z.opp <$> digits_go 0 false r
      else digits_go 0 false (c :: r)
  | [] => None
  end.

(** [[int(x.strip()) for x in response.strip().split(',')]]; [None] when
    one of the conversions raises. *)
Definition parse_ranking (response : str) : option (list Z) :=
  mapM (fun x => py_int (strip x)) (split (lit ",") (strip response)).

(** [for idx in ranking: if 0 <= idx < len(chunks):
    reranked.append(chunks[idx])] *)
Fixpoint pick_ranked (chunks : list chunk) (reranked : list chunk)
    (ranking : list Z) : list chunk :=
  match ranking with
  | [] => reranked
  | idx :: ranking' =>
      if (0 <=? idx) && (idx <? Z.of_nat (length chunks))
      then match chunks !! Z.to_nat idx with
           | Some c => pick_ranked chunks (reranked ++ [c]) ranking'
           | None => pick_ranked chunks reranked ranking'
           end
      else pick_ranked chunks reranked ranking'
  end.

(** [for chunk in chunks: if chunk not in reranked: reranked.append(chunk)] *)
Fixpoint add_missing (reranked : list chunk) (chunks : list chunk)
    : list chunk :=
  match chunks with
  | [] => reranked
  | c :: rest =>
      if decide (c ∈ reranked)
      then add_missing reranked rest
      else add_missing (reranked ++ [c]) rest
  end.

(** Outcome of [_rerank_chunks]: the returned list, or the [TypeError] of
    slicing a ['content'] that is not a string while the prompt is built
    (this happens before the [try]). *)
Inductive rerank_result :=
| Returned (chunks : list chunk)
| TypeError.

(** [chunk.get('content', '')[:500]] can be evaluated. *)
Definition content_sliceable (c : chunk) : bool :=
  match get c "content" (VStr "") with
  | VStr _ => true
  | _ => false
  end.

(** [RetrievalAgent._rerank_chunks].  [reply] is what [_call_llm] gives
    for the ranking prompt: [Some text], or [None] when the call raises or
    the message has no content; both end in the [except] branch. *)
Definition _rerank_chunks (reply : option str) (chunks : list chunk)
    : rerank_result :=
  match chunks with
  | [] => Returned []
  | _ :: _ =>
      if (length chunks <=? rerank_top_k)%nat then Returned chunks
      else if negb (forallb content_sliceable chunks) then TypeError
      else
        match reply with
        | None => Returned chunks
        | Some response =>
            match parse_ranking response with
            | None => Returned chunks
            | Some ranking =>
                let reranked := pick_ranked chunks [] ranking in
                Returned (add_missing reranked chunks)
            end
        end
  end.

(** An index that the first loop of the rerank accepts. *)
Definition in_range (n : nat) (idx : Z) : Prop := 0 <= idx < Z.of_nat n.

#[export] Instance in_range_dec (n : nat) (idx : Z) : Decision (in_range n idx).
Proof. unfold in_range. apply _. Defined.

(** A chunk without a ['chunk_id'] and without an ['id']. *)
Definition idless (c : chunk) : Prop :=
  c !! "chunk_id" = None /\ c !! "id" = None.

#[export] Instance idless_dec (c : chunk) : Decision (idless c).
Proof. unfold idless. apply _. Defined.

(** A chunk that carries the empty string as its identifier: under
    ['chunk_id'], or under ['id'] when it has no ['chunk_id']. *)
Definition empty_id (c : chunk) : Prop :=
  c !! "chunk_id" = Some (VStr "") \/
  (c !! "chunk_id" = None /\ c !! "id" = Some (VStr "")).

#[export] Instance empty_id_dec (c : chunk) : Decision (empty_id c).
Proof. unfold empty_id. apply _. Defined.

(** A chunk as [VectorStore.query] builds it, metadata aside. *)
Definition stored_chunk (chunk_id content : string) : chunk :=
  <["chunk_id" := VStr chunk_id]> (<["content" := VStr content]> ∅).

(** Six candidates with distinct identifiers. *)
Definition six_chunks : list chunk :=
  [stored_chunk "d_chunk_0" "alpha"; stored_chunk "d_chunk_1" "beta";
   stored_chunk "d_chunk_2" "gamma"; stored_chunk "d_chunk_3" "delta";
   stored_chunk "d_chunk_4" "epsilon"; stored_chunk "d_chunk_5" "zeta"].

(** [self.top_k = 8] *)
Definition top_k : nat := 8.

(** The lines kept by [_expand_query]:
    [[q.strip() for q in response.strip().split('\n') if q.strip()]]. *)
Definition expansion_lines (response : str) : list str :=
  omap (fun q => if truthy (strip q) then Some (strip q) else None)
       (split [newline] (strip response)).

(** [RetrievalAgent._expand_query].  [reply] is what [_call_llm] gives for
    the expansion prompt, [None] when the call raises or the message has
    no content (the [except] branch). *)
Definition _expand_query (reply : option str) (question : str) : list str :=
  match reply with
  | Some response => question :: take 2 (expansion_lines response)
  | None => [question]
  end.

(** The vector store: the result of [query(query_text, n_results, where)],
    [None] when it raises. *)
Definition vector_store := str -> nat -> option string -> option (list chunk).

(** [where_filter]: [{"course_id": course_id}] for a non-empty course. *)
Definition where_filter (course_id : option string) : option string :=
  match course_id with
  | Some EmptyString => None
  | other => other
  end.

(** [RetrievalAgent._retrieve_chunks] *)
Definition _retrieve_chunks (store : vector_store) (query : str)
    (course_id : option string) (k : nat) : list chunk :=
  default [] (store query k (where_filter course_id)).

(** What [process] leaves in the context: [retrieved_chunks] and the
    entries of [metadata["retrieval"]]. *)
Record retrieval := Retrieval {
  retrieved_chunks : list chunk;
  total_retrieved : nat;
  unique_chunks : nat;
  final_chunks : nat;
  queries_used : list str
}.

(** [RetrievalAgent.process]: [expansion] and [ranking] are the replies of
    the two completion calls (the second one is only made for more than
    [rerank_top_k] unique chunks); [None] is the [TypeError] that escapes
    from [_rerank_chunks]. *)
Definition process (store : vector_store) (expansion ranking : option str)
    (question : str) (course_id : option string) : option retrieval :=
  let expanded_queries := _expand_query expansion question in
  let all_chunks :=
    concat (map (fun query => _retrieve_chunks store query course_id top_k)
                expanded_queries) in
  let unique_chunks := _deduplicate_chunks all_chunks in
  match _rerank_chunks ranking unique_chunks with
  | TypeError => None
  | Returned reranked_chunks =>
      let retrieved := take rerank_top_k reranked_chunks in
      Some (Retrieval retrieved (length all_chunks) (length unique_chunks)
                      (length retrieved) expanded_queries)
  end.

(** A store that knows two chunks for every query. *)
Definition two_chunk_store : vector_store :=
  fun _ _ _ => Some [stored_chunk "d_chunk_0" "alpha";
                     stored_chunk "d_chunk_1" "beta"].

End SrcRetrievalAgent.

(** ** [src/services/cache_service.py]: the SQLite cache *)

Module CacheService.

(** Instants ([datetime.utcnow()]) and durations ([timedelta]) are counted
    in microseconds, the instants from [datetime.min], 0001-01-01
    00:00:00. *)
Definition default_ttl : Z := 24 * 3600 * 1000000.

(** [datetime.max], 9999-12-31 23:59:59.999999: day 3652059 of the
    calendar, less one microsecond. *)
Definition datetime_max : Z := 3652059 * 86400 * 1000000 - 1.

(** [t + delta] on a [datetime] and a [timedelta]; [None] is the
    [OverflowError] raised when the sum is not a [datetime]. *)
Definition datetime_add (t delta : Z) : option Z :=
  if (0 <=? t + delta) && (t + delta <=? datetime_max)
  then Some (t + delta)
  else None.

(** A row of [query_cache]; the primary key [cache_key] is the key of the
    map that holds the rows.  [created_at] is filled by SQLite and never
    read by the service. *)
Record query_row := QueryRow {
  response : string;
  q_course_id : option string;
  expires_at : option Z;
  hit_count : Z
}.

(** A row of [embedding_cache], keyed by [text_hash]. *)
Record embedding_row := EmbeddingRow {
  embedding : string;
  model : option string
}.

(** A row of [concept_graph_cache], keyed by [course_id]. *)
Record graph_row := GraphRow {
  graph_data : string;
  updated_at : Z
}.

(** The three tables of the database. *)
Record db := Db {
  query_cache : gmap string query_row;
  embedding_cache : gmap string embedding_row;
  concept_graph_cache : gmap string graph_row
}.

Definition empty_db : db := Db ∅ ∅ ∅.

(** Outcome of a call of [cache_response]: the database after the
    [INSERT OR REPLACE], or the [OverflowError] of
    [datetime.utcnow() + ttl], which is raised before any statement is
    executed and so leaves the database as it was. *)
Inductive cache_outcome :=
| Cached (d : db)
| OverflowError.

Section Service.
(** [hashlib.sha256(s.encode()).hexdigest()]. *)
Variable sha256_hexdigest : string -> string.
(** The cached payloads and their JSON text. *)
Variable payload : Type.
Variable json_dumps : payload -> string.
Variable json_loads : string -> payload.

(** [course_id or 'all'] *)
Definition course_or_all (course_id : option string) : string :=
  match course_id with
  | None => "all"
  | Some EmptyString => "all"
  | Some c => c
  end.

(** [CacheService._generate_cache_key] *)
Definition _generate_cache_key (query : string) (course_id : option string)
    : string :=
  let key_string := (query ++ ":" ++ course_or_all course_id)%string in
  String.substring 0 32 (sha256_hexdigest key_string).

(** The [WHERE] clause of the read:
    [expires_at IS NULL OR expires_at > now]. *)
Definition live (now : Z) (row : query_row) : bool :=
  match expires_at row with
  | None => true
  | Some e => now <? e
  end.

(** [CacheService.get_cached_response] at instant [now]: the returned
    value and the database after the call. *)
Definition get_cached_response (d : db) (now : Z) (query : string)
    (course_id : option string) : option payload * db :=
  let cache_key := _generate_cache_key query course_id in
  match query_cache d !! cache_key with
  | Some row =>
      if live now row then
        let row' := QueryRow (response row) (q_course_id row) (expires_at row)
                             (hit_count row + 1) in
        (Some (json_loads (response row)),
         Db (<[cache_key := row']> (query_cache d)) (embedding_cache d)
            (concept_graph_cache d))
      else (None, d)
  | None => (None, d)
  end.

(** [ttl or self.default_ttl]: [None] and the zero duration are falsy. *)
Definition ttl_or_default (ttl : option Z) : Z :=
  match ttl with
  | None => default_ttl
  | Some t => if t =? 0 then default_ttl else t
  end.

(** The write of [CacheService.cache_response] at instant [now]: the
    database after the [INSERT OR REPLACE], once [expires_at] has been
    computed.  The whole call is [cache_response_or_raise]. *)
Definition cache_response (d : db) (now : Z) (query : string)
    (resp : payload) (course_id : option string) (ttl : option Z) : db :=
  let cache_key := _generate_cache_key query course_id in
  let ttl := ttl_or_default ttl in
  let expires := now + ttl in
  Db (<[cache_key := QueryRow (json_dumps resp) course_id (Some expires) 0]>
        (query_cache d))
     (embedding_cache d) (concept_graph_cache d).

(** [CacheService.cache_response] at instant [now], with the
    [OverflowError] of [expires_at = datetime.utcnow() + ttl]: past
    [datetime.max] (or before [datetime.min]) the call raises and nothing
    is written. *)
Definition cache_response_or_raise (d : db) (now : Z) (query : string)
    (resp : payload) (course_id : option string) (ttl : option Z)
  : cache_outcome :=
  match datetime_add now (ttl_or_default ttl) with
  | Some _ => Cached (cache_response d now query resp course_id ttl)
  | None => OverflowError
  end.

(** [CacheService._hash_text] *)
Definition _hash_text (text : string) : string := sha256_hexdigest text.

(** [CacheService.get_cached_embedding] *)
Definition get_cached_embedding (d : db) (text : string) : option payload :=
  match embedding_cache d !! _hash_text text with
  | Some row => Some (json_loads (embedding row))
  | None => None
  end.

(** [CacheService.cache_embedding] *)
Definition cache_embedding (d : db) (text : string) (emb : payload)
    (mdl : string) : db :=
  Db (query_cache d)
     (<[_hash_text text := EmbeddingRow (json_dumps emb) (Some mdl)]>
        (embedding_cache d))
     (concept_graph_cache d).

(** [CacheService.get_cached_embeddings_batch]: the dictionary from each
    text to its cached embedding or [None]. *)
Fixpoint get_cached_embeddings_batch (d : db) (texts : list string)
    (results : gmap string (option payload)) : gmap string (option payload) :=
  match texts with
  | [] => results
  | text :: rest =>
      get_cached_embeddings_batch d rest
        (<[text := get_cached_embedding d text]> results)
  end.

(** [CacheService.get_cached_concept_graph] *)
Definition get_cached_concept_graph (d : db) (course_id : string)
  : option payload :=
  match concept_graph_cache d !! course_id with
  | Some row => Some (json_loads (graph_data row))
  | None => None
  end.

(** [CacheService.cache_concept_graph] at instant [now]. *)
Definition cache_concept_graph (d : db) (now : Z) (course_id : string)
    (graph : payload) : db :=
  Db (query_cache d) (embedding_cache d)
     (<[course_id := GraphRow (json_dumps graph) now]>
        (concept_graph_cache d)).

(** The dictionary returned by [get_cache_stats]. *)
Record cache_stats := CacheStats {
  query_cache_entries : nat;
  embedding_cache_entries : nat;
  concept_graph_entries : nat;
  total_cache_hits : Z
}.

(** [SELECT SUM(hit_count) FROM query_cache], [or 0] on an empty table. *)
Definition sum_hits (rows : gmap string query_row) : Z :=
  map_fold (fun _ row acc => hit_count row + acc) 0 rows.

(** [CacheService.get_cache_stats] *)
Definition get_cache_stats (d : db) : cache_stats :=
  CacheStats (size (query_cache d)) (size (embedding_cache d))
             (size (concept_graph_cache d)) (sum_hits (query_cache d)).

(** The [WHERE] clause of the sweep: [expires_at < now], which no row with
    a [NULL] expiry satisfies. *)
Definition swept (now : Z) (row : query_row) : bool :=
  match expires_at row with
  | Some e => e <? now
  | None => false
  end.

(** [CacheService.clear_expired]:
    [DELETE FROM query_cache WHERE expires_at < now]. *)
Definition clear_expired (d : db) (now : Z) : db :=
  Db (filter (fun kr => swept now (snd kr) = false) (query_cache d))
     (embedding_cache d) (concept_graph_cache d).

(** [CacheService.clear_course_cache]: the two [DELETE ... WHERE
    course_id = ?]; a row whose [course_id] is [NULL] matches no value. *)
Definition clear_course_cache (d : db) (course_id : string) : db :=
  Db (filter (fun kr => q_course_id (snd kr) ≠ Some course_id)
        (query_cache d))
     (embedding_cache d)
     (delete course_id (concept_graph_cache d)).

End Service.

(** A database with one cached response: hashing and JSON encoding are
    the identity on strings, the response is cached at instant 1000 for
    1000 microseconds. *)
Definition one_response_db : db :=
  cache_response (fun s => s) string (fun s => s) empty_db 1000
    "what is a chunk" "an answer" (Some "course-1") (Some 1000).

End CacheService.

(** ** JSON values: what [json.loads] returns *)

Module Json.

#[warnings="-register-all"]
Inductive json :=
| JNull
| JBool (b : bool)
| JNum (q : Q)
| JStr (s : string)
| JArr (l : list json)
| JObj (l : list (string * json)).

(** Truth value of a Python object read from JSON. *)
Definition truthy (j : json) : bool :=
  match j with
  | JNull => false
  | JBool b => b
  | JNum q => negb (Qeq_bool q 0)
  | JStr s => negb (String.eqb s "")
  | JArr l => match l with [] => false | _ => true end
  | JObj l => match l with [] => false | _ => true end
  end.

(** [d.get(k)] on a dictionary: [None] when the key is missing. *)
Definition get (d : gmap string json) (k : string) : json :=
  default JNull (d !! k).

(** [d.get(k, dflt)] *)
Definition get_or (d : gmap string json) (k : string) (dflt : json) : json :=
  default dflt (d !! k).

End Json.

(** ** [agents/retrieval_agent.py]: score threshold *)

Module RetrievalAgent.

(** A search result of the vector store.  [score] is [None] when the
    dictionary has no ["score"] key. *)
Record search_result := SearchResult {
  id : string;
  text : string;
  score : option Q
}.

(** [self.min_score = 0.5] *)
Definition min_score : Q := 5 # 10.

(** [r.get("score", 0)] *)
Definition score_of (r : search_result) : Q := default (0 : Q) (score r).

(** [r.get("score", 0) >= self.min_score] *)
Definition meets_threshold (r : search_result) : bool :=
  Qle_bool min_score (score_of r).

(** The filtering steps of [RetrievalAgent.process]: the value assigned to
    [context.retrieved_chunks] for the [results] of the search. *)
Definition filter_results (results : list search_result)
    : list search_result :=
  let filtered_results := List.filter meets_threshold results in
  match filtered_results, results with
  | [], _ :: _ => take 3 results
  | _, _ => filtered_results
  end.

(** The example of the specification: scores 0.3, 0.2 and 0.1. *)
Definition low_results : list search_result :=
  [SearchResult "a" "first" (Some (3 # 10));
   SearchResult "b" "second" (Some (2 # 10));
   SearchResult "c" "third" (Some (1 # 10))].

(** One result below the threshold, one above it, one without a score. *)
Definition mixed_results : list search_result :=
  [SearchResult "a" "first" (Some (3 # 10));
   SearchResult "b" "second" (Some (9 # 10));
   SearchResult "c" "third" None].

(** [sum(r.get("score", 0) for r in filtered_results)] *)
Definition score_sum (results : list search_result) : Q :=
  foldr (fun r acc => (score_of r + acc)%Q) (0 : Q) results.

(** The curriculum alignment that [process] computes from the filtered
    results: [min(avg_score, 1.0)], or [0.0] without any. *)
Definition alignment_of (filtered_results : list search_result) : Q :=
  match filtered_results with
  | [] => 0
  | _ :: _ =>
      Qmin (score_sum filtered_results
            / inject_Z (Z.of_nat (length filtered_results)))%Q 1
  end.

(** [context.curriculum_alignment] after [RetrievalAgent.process]. *)
Definition process_alignment (results : list search_result) : Q :=
  alignment_of (filter_results results).

End RetrievalAgent.

(** ** [agents/pedagogy_agent.py]: confidence of the composed answer *)

Module PedagogyAgent.
Import Json.

#[local] Open Scope Q_scope.

(** [PedagogyAgent._calculate_confidence]; [chunks] is [None] when the
    context never received a list.  The [float] sums are read as exact
    rationals. *)
Definition _calculate_confidence {A} (answer : gmap string json)
    (chunks : option (list A)) : Q :=
  let confidence := 5 # 10 in
  let confidence :=
    match chunks with
    | Some ((_ :: _) as l) =>
        confidence + (2 # 10) * Qmin (inject_Z (Z.of_nat (length l)) / 5) 1
    | _ => confidence
    end in
  let confidence :=
    if truthy (get answer "definition") then confidence + (1 # 10)
    else confidence in
  let confidence :=
    if truthy (get answer "explanation") then confidence + (1 # 10)
    else confidence in
  let confidence :=
    if truthy (get answer "example") then confidence + (5 # 100)
    else confidence in
  let confidence :=
    if truthy (get answer "pitfalls") then confidence + (5 # 100)
    else confidence in
  Qmin confidence 1.

End PedagogyAgent.

(** ** [agents/verification_agent.py]: excerpts *)

Module VerificationAgent.
Import PyStr.

(** Scan of [s.rfind(c)] for one character: [i] is the index of the head
    of [s], [best] the last index seen so far. *)
Fixpoint rfind_go (c : ascii) (s : str) (i best : Z) : Z :=
  match s with
  | [] => best
  | x :: s' => rfind_go c s' (i + 1) (if Ascii.eqb x c then i else best)
  end.

(** [s.rfind(c)]: the highest index of [c] in [s], or [-1]. *)
Definition rfind (c : ascii) (s : str) : Z := rfind_go c s 0 (-1).

(** [s.rsplit(c, 1)[0]]: [s] up to its last [c], all of [s] without one. *)
Definition rsplit1_head (c : ascii) (s : str) : str :=
  let i := rfind c s in
  if i <? 0 then s else take (Z.to_nat i) s.

(** [VerificationAgent._create_excerpt] *)
Definition _create_excerpt (text : str) (max_length : Z) : str :=
  if len text <=? max_length then text
  else
    let truncated := slice_to max_length text in
    let last_period := rfind "."%char truncated in
    if max_length / 2 <? last_period
    then slice_to (last_period + 1) truncated
    else rsplit1_head " "%char truncated ++ lit "...".

(** The call of [_extract_sources]: [max_length] keeps its default. *)
Definition create_excerpt (text : str) : str := _create_excerpt text 150.

(** [p] is the index of the last occurrence of [c] in [s]. *)
Definition last_at (c : ascii) (p : nat) (s : str) : Prop :=
  s !! p = Some c /\ forall q, (p < q)%nat -> s !! q <> Some c.

(** A text of 200 characters whose only period is at index 80. *)
Definition period_80_text : str :=
  concat (replicate 16 (lit "word ")) ++ lit "."
  ++ concat (replicate 17 (lit " points")).

(** A text of 207 characters whose only period is at index 5. *)
Definition early_period_text : str :=
  lit "Intro. " ++ concat (replicate 40 (lit "word ")).

End VerificationAgent.

(** ** [agents/orchestrator.py]: the final response *)

Module Orchestrator.
Import Json.

#[local] Open Scope Q_scope.

(** A citation built by the verification agent. *)
Record source := Source {
  title : string;
  page : option Z;
  chunk_id : string;
  src_confidence : Q;
  excerpt : string
}.

(** [AgentContext] of [agents/base.py]; a list field is [None] until an
    agent assigns it. *)
Record AgentContext := MkContext {
  question : string;
  course_id : string;
  retrieved_chunks : option (list RetrievalAgent.search_result);
  structured_answer : option (gmap string json);
  sources : option (list source);
  misconceptions : option (list string);
  curriculum_alignment : Q;
  related_concepts : option (list string);
  confidence : Q
}.

(** The ["answer"] entry of the response. *)
Record answer_view := AnswerView {
  definition : json;
  explanation : json;
  example : json;
  pitfalls : json
}.

(** The dictionary returned to the caller. *)
Record response := Response {
  answer : answer_view;
  r_sources : list source;
  r_curriculum_alignment : Q;
  misconception_warning : option string;
  r_related_concepts : list string;
  r_confidence : Q;
  has_course_material : bool
}.

(** Truth value of an optional list: [None] and [[]] are falsy. *)
Definition nonempty {A} (l : option (list A)) : bool :=
  match l with
  | Some (_ :: _) => true
  | _ => false
  end.

(** [AgentOrchestrator._format_response].  The [float] confidence is read
    as an exact rational: the rounding of [confidence * 0.8] is not
    modelled, so only comparisons that the rounding of one product cannot
    cross (such as the cap 0.85) are stated of it. *)
Definition _format_response (context : AgentContext) : response :=
  let answer := default ∅ (structured_answer context) in
  let sources :=
    if nonempty (retrieved_chunks context)
    then default [] (sources context)
    else [] in
  let confidence :=
    if negb (nonempty (retrieved_chunks context))
    then Qmin (confidence context * (8 # 10)) (85 # 100)
    else confidence context in
  Response
    (AnswerView (get_or answer "definition" (JStr ""))
                (get_or answer "explanation" (JStr ""))
                (get_or answer "example" (JStr ""))
                (get_or answer "pitfalls" (JArr [])))
    sources
    (curriculum_alignment context)
    (match misconceptions context with
     | Some (m :: _) => Some m
     | _ => None
     end)
    (default [] (related_concepts context))
    confidence
    (nonempty (retrieved_chunks context)).

(** The context of a question on a course without indexed chunks, after
    the composer scored a complete answer written from general knowledge:
    0.5 + 0.1 + 0.1 + 0.05 + 0.05. *)
Definition unanswered_context : AgentContext :=
  MkContext "what is a chunk" "course-1" (Some []) (Some ∅) (Some [])
            (Some []) 0 (Some []) (8 # 10).

End Orchestrator.

(** ** [agents/pedagogy_agent.py]: context, prompt and fallback answer *)

Module PedagogyStage.
Import PyStr Json PedagogyAgent.

(** The keys of a retrieved chunk that the pedagogy agent reads:
    [metadata["source"]] and ["text"], [None] when missing. *)
Record context_chunk := ContextChunk {
  cc_source : option str;
  cc_text : option str
}.

Definition NO_MATERIAL : str := lit "No relevant course material found.".

(** [f"[{source}]\n{text}"] for the chunk at position [i], whose source
    defaults to [f"Source {i+1}"]. *)
Definition context_part (i : nat) (chunk : context_chunk) : str :=
  let source := default (lit "Source " ++ lit (pretty (i + 1)%nat))
                        (cc_source chunk) in
  let text := default [] (cc_text chunk) in
  lit "[" ++ source ++ lit "]" ++ [newline] ++ text.

(** [PedagogyAgent._prepare_context] *)
Definition _prepare_context (chunks : option (list context_chunk)) : str :=
  match chunks with
  | None => NO_MATERIAL
  | Some [] => NO_MATERIAL
  | Some l =>
      join ([newline; newline] ++ lit "---" ++ [newline; newline])
           (imap context_part l)
  end.

(** The two templates of [_build_prompt], by what is filled in. *)
Inductive prompt :=
| CourseMaterialPrompt (context question : str)
| GeneralKnowledgePrompt (question : str).

(** [PedagogyAgent._build_prompt] *)
Definition _build_prompt (question context : str) : prompt :=
  let has_course_material :=
    PyStr.truthy context && bool_decide (context <> NO_MATERIAL) in
  if has_course_material
  then CourseMaterialPrompt context question
  else GeneralKnowledgePrompt question.

(** The answer used when the completion is not valid JSON. *)
Definition fallback_answer (content : string) : gmap string json :=
  <["definition" := JStr content]>
    (<["explanation" := JStr ""]>
       (<["example" := JStr ""]> (<["pitfalls" := JArr []]> ∅))).

Section Process.
(** [json.loads] on the content of a completion requested as a JSON
    object; [None] is the [JSONDecodeError]. *)
Variable json_loads : string -> option (gmap string json).

(** [context.structured_answer] after [PedagogyAgent.process] for the
    completion [content]. *)
Definition structured_answer_of (content : string) : gmap string json :=
  match json_loads content with
  | Some answer => answer
  | None => fallback_answer content
  end.

(** [context.confidence] after [PedagogyAgent.process]. *)
Definition process_confidence {A} (content : string)
    (chunks : option (list A)) : Q :=
  _calculate_confidence (structured_answer_of content) chunks.
End Process.

End PedagogyStage.

(** ** [agents/verification_agent.py]: sources and alignment *)

Module SourceExtraction.
Import PyStr VerificationAgent Orchestrator.

#[local] Open Scope Q_scope.

(** The keys of a retrieved chunk that the verification agent reads;
    [None] is a missing key (a missing ["metadata"] is three missing
    keys). *)
Record scored_chunk := ScoredChunk {
  sc_id : option string;
  sc_text : option str;
  sc_score : option Q;
  sc_document_id : option string;
  sc_document_title : option string;
  sc_page : option Z
}.

(** [(metadata.get("document_id", ""), metadata.get("page", 0))] *)
Definition source_key (c : scored_chunk) : string * Z :=
  (default EmptyString (sc_document_id c), default 0%Z (sc_page c)).

Section Sources.
(** [round(score, 2)] *)
Variable round2 : Q -> Q.

(** The dictionary appended to [sources] for a chunk. *)
Definition make_source (c : scored_chunk) : source :=
  Source (default "Unknown Source"%string (sc_document_title c))
         (sc_page c)
         (default EmptyString (sc_id c))
         (round2 (default (5 # 10) (sc_score c)))
         (string_of_list_ascii (create_excerpt (default [] (sc_text c)))).

(** [for chunk in chunks], on the pair [(seen_sources, sources)]. *)
Fixpoint sources_loop (seen_sources : gset (string * Z))
    (sources : list source) (chunks : list scored_chunk) : list source :=
  match chunks with
  | [] => sources
  | c :: rest =>
      if decide (source_key c ∈ seen_sources)
      then sources_loop seen_sources sources rest
      else sources_loop ({[source_key c]} ∪ seen_sources)
                        (sources ++ [make_source c]) rest
  end.

(** Insertion of one source into a list sorted by decreasing confidence,
    before the first entry that is not more confident. *)
Fixpoint insert_desc (s : source) (l : list source) : list source :=
  match l with
  | [] => [s]
  | x :: rest =>
      if Qle_bool (src_confidence x) (src_confidence s)
      then s :: l
      else x :: insert_desc s rest
  end.

(** [sources.sort(key=lambda x: x["confidence"], reverse=True)]: the
    sort of Python is stable, also with [reverse=True]. *)
Definition sort_desc (l : list source) : list source :=
  foldr insert_desc [] l.

(** [VerificationAgent._extract_sources]; the [answer] argument is not
    read. *)
Definition _extract_sources (chunks : option (list scored_chunk))
  : list source :=
  match chunks with
  | None => []
  | Some [] => []
  | Some l => take 5 (sort_desc (sources_loop ∅ [] l))
  end.

End Sources.

(** [sum(s.get("confidence", 0) for s in context.sources) /
    len(context.sources)] *)
Definition mean_confidence (sources : list source) : Q :=
  foldr (fun s acc => src_confidence s + acc) 0 sources
  / inject_Z (Z.of_nat (length sources)).

(** The update of [context.curriculum_alignment] at the end of
    [VerificationAgent.process]. *)
Definition updated_alignment (alignment : Q) (sources : option (list source))
  : Q :=
  match sources with
  | Some ((_ :: _) as l) => Qmax alignment (mean_confidence l)
  | _ => alignment
  end.

(** Three chunks of two pages, with Python's [round] read as the identity
    on the scores used. *)
Definition three_scored_chunks : list scored_chunk :=
  [ScoredChunk (Some "c1") (Some (lit "Short text.")) (Some (6 # 10))
               (Some "doc") (Some "Notes") (Some 1%Z);
   ScoredChunk (Some "c2") (Some (lit "Other text.")) (Some (9 # 10))
               (Some "doc") (Some "Notes") (Some 2%Z);
   ScoredChunk (Some "c3") (Some (lit "Same page.")) (Some (95 # 100))
               (Some "doc") (Some "Notes") (Some 1%Z)].

End SourceExtraction.

(** * Properties *)

(** ** Python strings *)

Module PyStrFacts.
Import PyStr.

Example split_comma :
  split (lit ",") (lit "2,0,,1,") = [lit "2"; lit "0"; lit ""; lit "1"; lit ""].
Proof. reflexivity. Qed.

Example split_two_characters :
  split [newline; newline] (lit "a" ++ [newline; newline; newline] ++ lit "b")
  = [lit "a"; newline :: lit "b"].
Proof. reflexivity. Qed.

Example split_no_separator : split (lit ". ") (lit "") = [lit ""].
Proof. reflexivity. Qed.

Example strip_both_ends :
  strip (lit "  a b " ++ [newline]) = lit "a b".
Proof. reflexivity. Qed.

Example slice_last_three : slice_from (-3) (lit "abcdef") = lit "def".
Proof. reflexivity. Qed.

Example slice_minus_zero : slice_from (-0) (lit "abcdef") = lit "abcdef".
Proof. reflexivity. Qed.

Lemma len_nonneg (s : str) : 0 <= len s.
Proof. unfold len. lia. Qed.

Lemma len_app (s t : str) : len (s ++ t) = len s + len t.
Proof. unfold len. rewrite length_app. lia. Qed.

Lemma lstrip_length (s : str) : (length (lstrip s) <= length s)%nat.
Proof.
induction s as [|c s IH]; simpl; [lia|].
destruct (isspace c); simpl; lia.
Qed.

Lemma strip_length (s : str) : (length (strip s) <= length s)%nat.
Proof.
unfold strip, rstrip.
rewrite length_rev.
etransitivity; [apply lstrip_length|].
rewrite length_rev. apply lstrip_length.
Qed.

Lemma len_strip (s : str) : len (strip s) <= len s.
Proof. unfold len. pose proof (strip_length s). lia. Qed.

Lemma chars_length_one (s : str) : Forall (fun p => length p = 1%nat) (chars s).
Proof. unfold chars. induction s; simpl; constructor; auto. Qed.

Lemma slice_to_nonneg (j : Z) (s : str) :
  0 <= j -> slice_to j s = take (Z.to_nat j) s.
Proof.
intros Hj. unfold slice_to. destruct (Z.ltb_spec j 0); [lia|reflexivity].
Qed.

Lemma len_slice_from_neg (k : Z) (s : str) :
  0 < k -> k < len s -> len (slice_from (- k) s) = k.
Proof.
intros Hk Hlt. unfold slice_from.
destruct (Z.ltb_spec (- k) 0) as [_|H]; [|lia].
unfold len in *. rewrite length_drop. lia.
Qed.

(** *** Stripping *)

Lemma lstrip_clean_start (s : str) : clean_start (lstrip s).
Proof.
induction s as [|c s IH]; simpl; [exact I|].
destruct (isspace c) eqn:Hc; [exact IH|exact Hc].
Qed.

Lemma lstrip_fixed (s : str) : clean_start s -> lstrip s = s.
Proof. destruct s as [|c s]; simpl; [reflexivity|]. by intros ->. Qed.

Lemma lstrip_all_space (a b : str) : all_space a -> lstrip (a ++ b) = lstrip b.
Proof.
induction 1 as [|c a Hc _ IH]; simpl; [reflexivity|]. by rewrite Hc.
Qed.

Lemma lstrip_nil_all_space (s : str) : lstrip s = [] -> all_space s.
Proof.
induction s as [|c s IH]; simpl; [constructor|].
destruct (isspace c) eqn:Hc; [|discriminate].
intros H. constructor; [exact Hc|exact (IH H)].
Qed.

Lemma lstrip_app_keep (s w : str) :
  lstrip s <> [] -> lstrip (s ++ w) = lstrip s ++ w.
Proof.
induction s as [|c s IH]; simpl; [congruence|].
destruct (isspace c); [exact IH|reflexivity].
Qed.

Lemma lstrip_snoc (a : str) (c : ascii) :
  isspace c = false -> exists a', lstrip (a ++ [c]) = a' ++ [c].
Proof.
intros Hc. induction a as [|x a IH]; simpl.
- rewrite Hc. by exists [].
- destruct (isspace x); [exact IH|]. by exists (x :: a).
Qed.

Lemma all_space_rev (w : str) : all_space w -> all_space (rev w).
Proof. apply Forall_rev. Qed.

Lemma rstrip_all_space (u w : str) : all_space w -> rstrip (u ++ w) = rstrip u.
Proof.
intros Hw. unfold rstrip. rewrite rev_app_distr.
rewrite lstrip_all_space; [reflexivity|by apply all_space_rev].
Qed.

Lemma rstrip_clean_start (s : str) : clean_start s -> clean_start (rstrip s).
Proof.
destruct s as [|c s]; [intros _; exact I|]. simpl. intros Hc.
unfold rstrip. simpl.
destruct (lstrip_snoc (rev s) c Hc) as [a' ->].
rewrite rev_app_distr. simpl. exact Hc.
Qed.

Lemma rstrip_fixed (s : str) : clean_start (rev s) -> rstrip s = s.
Proof.
intros H. unfold rstrip. rewrite (lstrip_fixed _ H). apply rev_involutive.
Qed.

Lemma strip_clean (s : str) :
  clean_start (strip s) /\ clean_start (rev (strip s)).
Proof.
unfold strip. split.
- apply rstrip_clean_start, lstrip_clean_start.
- unfold rstrip. rewrite rev_involutive. apply lstrip_clean_start.
Qed.

(** A stripped string is not changed by [strip]. *)
Lemma strip_fixed (s : str) :
  clean_start s -> clean_start (rev s) -> strip s = s.
Proof.
intros H1 H2. unfold strip. rewrite (lstrip_fixed _ H1). by apply rstrip_fixed.
Qed.

Lemma strip_idemp (s : str) : strip (strip s) = strip s.
Proof. destruct (strip_clean s). by apply strip_fixed. Qed.

(** Whitespace appended to a string is stripped with the rest. *)
Lemma strip_app_space (s w : str) : all_space w -> strip (s ++ w) = strip s.
Proof.
intros Hw. unfold strip.
destruct (lstrip s) as [|c r] eqn:Hl.
- apply lstrip_nil_all_space in Hl.
  rewrite (lstrip_all_space s w Hl).
  assert (lstrip w = []) as ->; [|reflexivity].
  rewrite <- (app_nil_r w). rewrite (lstrip_all_space w [] Hw). reflexivity.
- rewrite lstrip_app_keep by (rewrite Hl; discriminate).
  rewrite Hl. by apply rstrip_all_space.
Qed.

(** *** Splitting and joining *)

Lemma starts_with_spec (p s : str) :
  starts_with p s = true <-> exists t, s = p ++ t.
Proof.
revert s. induction p as [|a p IH]; intros s; simpl.
- split; [intros _; by exists s|reflexivity].
- destruct s as [|b s].
  + split; [discriminate|]. intros [t Ht]. discriminate.
  + destruct (Ascii.eqb_spec a b) as [->|Hne].
    * rewrite IH. split; intros [t Ht]; exists t; [by rewrite Ht|congruence].
    * split; [discriminate|]. intros [t Ht]. congruence.
Qed.

(** The pieces of a split, each followed by the separator, spell the text
    followed by the separator. *)
Lemma split_go_pieces (sep : str) (s : str) :
  sep <> [] ->
  forall (skip : nat) (cur : str),
    take skip s = drop (length sep - skip) sep -> (skip < length sep)%nat ->
    concat (map (fun p => p ++ sep) (split_go sep skip cur s))
    = cur ++ drop skip s ++ sep.
Proof.
intros Hsep. induction s as [|c s IH]; intros skip cur Hskip Hlt.
- simpl. rewrite drop_nil, app_nil_r. simpl. reflexivity.
- destruct skip as [|k].
  + cbn [split_go]. destruct (starts_with sep (c :: s)) eqn:Hst.
    * apply starts_with_spec in Hst as [t Ht].
      destruct sep as [|a sep']; [congruence|].
      simpl in Ht. injection Ht as -> ->.
      cbn [map concat]. rewrite IH.
      -- simpl. rewrite Nat.sub_0_r. rewrite drop_app_length.
         rewrite <- !app_assoc. reflexivity.
      -- replace (length (a :: sep') - 1)%nat with (length sep')
           by (simpl; lia).
         rewrite take_app_length.
         replace (length (a :: sep') - length sep')%nat with 1%nat
           by (simpl; lia).
         reflexivity.
      -- simpl. lia.
    * rewrite IH; [|by rewrite Nat.sub_0_r, drop_all|lia].
      simpl. rewrite <- app_assoc. reflexivity.
  + cbn [split_go]. rewrite IH.
    * reflexivity.
    * simpl in Hskip.
      assert (length sep - S k < length sep)%nat as Hpos by lia.
      destruct (drop (length sep - S k) sep) as [|d rest] eqn:Hd;
        [discriminate|].
      injection Hskip as -> Htk. rewrite Htk.
      replace (length sep - k)%nat with (length sep - S k + 1)%nat by lia.
      rewrite <- drop_drop, Hd. reflexivity.
    * lia.
Qed.

Lemma split_pieces (sep s : str) :
  sep <> [] ->
  concat (map (fun p => p ++ sep) (split sep s)) = s ++ sep.
Proof.
intros Hsep. unfold split. rewrite (split_go_pieces sep s Hsep 0 []).
- reflexivity.
- by rewrite Nat.sub_0_r, drop_all.
- destruct sep; [congruence|simpl; lia].
Qed.

(** *** Lines: splitting at the line feed *)

Lemma split_go_newline_acc (s : str) :
  forall cur : str,
    split_go [newline] 0 cur s
    = match split_go [newline] 0 [] s with
      | p :: ps => (cur ++ p) :: ps
      | [] => [cur]
      end.
Proof.
induction s as [|c s IH]; intros cur.
- simpl. by rewrite app_nil_r.
- cbn [split_go starts_with length Nat.sub].
  destruct (Ascii.eqb newline c).
  + by rewrite app_nil_r.
  + rewrite (IH (cur ++ [c])), (IH ([] ++ [c])).
    destruct (split_go [newline] 0 [] s) as [|p ps]; [reflexivity|].
    by rewrite <- app_assoc.
Qed.

Lemma split_newline_nonempty (s : str) : split [newline] s <> [].
Proof.
unfold split. destruct s as [|c s]; [discriminate|].
cbn [split_go starts_with length Nat.sub].
destruct (Ascii.eqb newline c); [discriminate|].
rewrite split_go_newline_acc.
destruct (split_go [newline] 0 [] s); discriminate.
Qed.

Lemma split_newline_cons (c : ascii) (s : str) :
  split [newline] (c :: s)
  = if Ascii.eqb newline c then [] :: split [newline] s
    else match split [newline] s with
         | p :: ps => (c :: p) :: ps
         | [] => [[c]]
         end.
Proof.
unfold split. cbn [split_go starts_with length Nat.sub].
destruct (Ascii.eqb newline c); [reflexivity|].
by rewrite split_go_newline_acc.
Qed.

(** A line feed ends the piece that has none. *)
Lemma split_newline_app (p t : str) :
  newline ∉ p ->
  split [newline] (p ++ newline :: t) = p :: split [newline] t.
Proof.
induction p as [|c p IH]; intros Hp.
- simpl. rewrite split_newline_cons. by rewrite Ascii.eqb_refl.
- simpl. rewrite split_newline_cons.
  destruct (Ascii.eqb_spec newline c) as [Heq|Hne];
    [exfalso; apply Hp; rewrite <- Heq; left|].
  rewrite IH by (intros Hin; apply Hp; by right). reflexivity.
Qed.

Lemma split_newline_line (p : str) :
  newline ∉ p -> split [newline] p = [p].
Proof.
induction p as [|c p IH]; intros Hp; [reflexivity|].
rewrite split_newline_cons.
destruct (Ascii.eqb_spec newline c) as [Heq|Hne];
  [exfalso; apply Hp; rewrite <- Heq; left|].
rewrite IH by (intros Hin; apply Hp; by right). reflexivity.
Qed.

(** Splitting undoes joining, for lines without line feed. *)
Lemma split_newline_join (p : str) (lines : list str) :
  Forall (fun l => newline ∉ l) (p :: lines) ->
  split [newline] (join [newline] (p :: lines)) = p :: lines.
Proof.
revert p. induction lines as [|q lines IH]; intros p Hall.
- apply split_newline_line. by apply Forall_inv in Hall.
- apply Forall_cons in Hall as [Hp Hall].
  change (join [newline] (p :: q :: lines))
    with (p ++ newline :: join [newline] (q :: lines)).
  rewrite split_newline_app by exact Hp. by rewrite IH.
Qed.

(** The pieces of a text with one more character: a line feed opens an
    empty piece, any other character extends the last piece. *)
Lemma split_newline_snoc (s : str) (c : ascii) :
  exists init lst,
    split [newline] s = init ++ [lst] /\
    split [newline] (s ++ [c])
    = if Ascii.eqb newline c then init ++ [lst; []]
      else init ++ [lst ++ [c]].
Proof.
induction s as [|a s (init & lst & Hs & Hsc)].
- exists [], []. split; [reflexivity|]. cbn [app].
  rewrite split_newline_cons. by destruct (Ascii.eqb newline c).
- cbn [app]. rewrite !split_newline_cons, Hs, Hsc.
  destruct (Ascii.eqb newline a).
  + exists ([] :: init), lst. split; [reflexivity|].
    by destruct (Ascii.eqb newline c).
  + destruct init as [|i init].
    * exists [], (a :: lst). split; [reflexivity|].
      by destruct (Ascii.eqb newline c).
    * exists ((a :: i) :: init), lst. split; [reflexivity|].
      by destruct (Ascii.eqb newline c).
Qed.

(** A text is the whitespace [lstrip] removes followed by what it keeps,
    and what [rstrip] keeps followed by the whitespace it removes. *)
Lemma lstrip_decomp (s : str) :
  exists w, all_space w /\ s = w ++ lstrip s.
Proof.
induction s as [|c s (w & Hw & Hs)];
  [exists []; split; [constructor|reflexivity]|].
simpl. destruct (isspace c) eqn:Hc.
- exists (c :: w). split; [by constructor|]. simpl. by rewrite <- Hs.
- exists []. split; [constructor|reflexivity].
Qed.

Lemma rstrip_decomp (s : str) :
  exists w, all_space w /\ s = rstrip s ++ w.
Proof.
destruct (lstrip_decomp (rev s)) as (w & Hw & Hs).
exists (rev w). split; [by apply all_space_rev|].
unfold rstrip. rewrite <- rev_app_distr, <- Hs. by rewrite rev_involutive.
Qed.

End PyStrFacts.

(** ** The chunker *)

Module DocumentProcessorFacts.
Import PyStr PyStrFacts DocumentProcessor.

Lemma bind_Ret_inv {A B} (m : res A) (k : A -> res B) (b : B) :
  m ≫= k = Ret b -> exists a, m = Ret a /\ k a = Ret b.
Proof. destruct m; simpl; intros H; try discriminate. eauto. Qed.

Lemma new_separators_shorter (separators : list str) :
  separators <> [] ->
  (length (new_separators_of separators) < length separators)%nat.
Proof.
destruct separators as [|s rest]; [congruence|]. intros _.
unfold new_separators_of. destruct rest; simpl; lia.
Qed.

Lemma new_separators_cons (s : str) (rest : list str) :
  new_separators_of (s :: rest) = rest.
Proof. unfold new_separators_of. destruct rest; reflexivity. Qed.

(** *** Totality: the loop returns as soon as its recursive calls do. *)

Section LoopTotal.
Variable cfg : config.
Variable rec : str -> list str -> res (list str).
Variable separator : str.
Variable new_separators : list str.
Hypothesis rec_total :
  new_separators <> [] ->
  forall piece, exists r, rec piece new_separators = Ret r.

Lemma loop_body_total (st : list str * str) (split : str) :
  exists st', loop_body cfg rec separator new_separators st split = Ret st'.
Proof.
destruct st as [chunks cur]. unfold loop_body. cbv zeta.
destruct (_ <? _ + _); [|eauto].
destruct (_ <? _); simpl; [|eauto].
case_bool_decide as Hne; [|eauto].
match goal with
| |- context [rec ?piece new_separators] =>
    destruct (rec_total Hne piece) as [r ->]
end.
simpl. eauto.
Qed.

Lemma loop_total (splits : list str) (st : list str * str) :
  exists st', loop cfg rec separator new_separators st splits = Ret st'.
Proof.
revert st. induction splits as [|split splits IH]; intros st; simpl; [eauto|].
destruct (loop_body_total st split) as [st1 ->]. simpl. apply IH.
Qed.
End LoopTotal.

Lemma recursive_split_total (cfg : config) (fuel : nat) :
  forall (separators : list str) (text : str),
    separators <> [] -> (length separators <= fuel)%nat ->
    exists chunks, _recursive_split cfg fuel text separators = Ret chunks.
Proof.
induction fuel as [|fuel IH]; intros separators text Hne Hlen.
- destruct separators; [congruence|simpl in Hlen; lia].
- destruct separators as [|separator rest]; [congruence|].
  cbn [_recursive_split]. rewrite new_separators_cons.
  match goal with
  | |- context [loop cfg ?rec separator rest ?st0 ?sp] =>
      assert (Htot : exists st', loop cfg rec separator rest st0 sp = Ret st')
  end.
  { apply loop_total. intros Hr piece.
    apply IH; [assumption|simpl in Hlen; lia]. }
  destruct Htot as [st' ->]. simpl. eauto.
Qed.

(** *** More fuel never changes a result. *)

Section LoopMono.
Variable cfg : config.
Variables rec rec' : str -> list str -> res (list str).
Variable separator : str.
Variable new_separators : list str.
Hypothesis rec_mono :
  forall piece r, rec piece new_separators = Ret r ->
                  rec' piece new_separators = Ret r.

Lemma loop_body_mono (st st' : list str * str) (split : str) :
  loop_body cfg rec separator new_separators st split = Ret st' ->
  loop_body cfg rec' separator new_separators st split = Ret st'.
Proof.
destruct st as [chunks cur]. unfold loop_body. cbv zeta.
destruct (_ <? _ + _); [|auto].
destruct (_ && _); [|auto].
intros H. apply bind_Ret_inv in H as (r & Hr & Hk).
rewrite (rec_mono _ _ Hr). exact Hk.
Qed.

Lemma loop_mono (splits : list str) (st st' : list str * str) :
  loop cfg rec separator new_separators st splits = Ret st' ->
  loop cfg rec' separator new_separators st splits = Ret st'.
Proof.
revert st. induction splits as [|split splits IH]; intros st; simpl; [auto|].
intros H. apply bind_Ret_inv in H as (st1 & H1 & H2).
rewrite (loop_body_mono _ _ _ H1). simpl. auto.
Qed.
End LoopMono.

Lemma recursive_split_fuel_mono (cfg : config) (fuel : nat) :
  forall (fuel' : nat) (text : str) (separators chunks : list str),
    (fuel <= fuel')%nat ->
    _recursive_split cfg fuel text separators = Ret chunks ->
    _recursive_split cfg fuel' text separators = Ret chunks.
Proof.
induction fuel as [|fuel IH]; intros fuel' text separators chunks Hle H.
- discriminate.
- destruct fuel' as [|fuel']; [lia|].
  destruct separators as [|separator rest]; [discriminate|].
  cbn [_recursive_split] in *.
  apply bind_Ret_inv in H as (st & Hst & Hk).
  apply (loop_mono cfg _ (_recursive_split cfg fuel')) in Hst.
  + rewrite Hst. exact Hk.
  + intros piece r Hr. apply IH; [lia|exact Hr].
Qed.

(** *** The accumulated buffers and the returned chunks *)

Lemma returned_of_app (cfg : config) (a b : list str) :
  returned_of cfg (a ++ b) = returned_of cfg a ++ returned_of cfg b.
Proof. unfold returned_of. by rewrite filter_app, fmap_app. Qed.

(** The guarded append is the recording of the buffer followed by the
    selection. *)
Lemma returned_of_snoc (cfg : config) (buffers : list str) (cur : str) :
  returned_of cfg (buffers ++ [cur]) = flush cfg (returned_of cfg buffers) cur.
Proof.
rewrite returned_of_app. unfold flush, returned_of at 2.
destruct (Z.leb_spec (min_chunk_size cfg) (len cur)) as [Hge|Hlt].
- by rewrite filter_cons_True.
- rewrite filter_cons_False by lia. simpl. by rewrite app_nil_r.
Qed.

Section LoopBuffers.
Variable cfg : config.
Variable rec recb : str -> list str -> res (list str).
Variable separator : str.
Variable new_separators : list str.
Hypothesis rec_buffers :
  forall piece,
    rec piece new_separators
    = res_map (returned_of cfg) (recb piece new_separators).

Let select (st : list str * str) : list str * str :=
  (returned_of cfg (fst st), snd st).

Lemma loop_body_buffers (st : list str * str) (split : str) :
  loop_body cfg rec separator new_separators (select st) split
  = res_map select (buffers_loop_body cfg recb separator new_separators
                      st split).
Proof.
destruct st as [buffers cur]. unfold loop_body, buffers_loop_body, select.
cbv zeta. simpl.
destruct (_ <? _ + _); [|reflexivity].
rewrite <- returned_of_snoc.
destruct (_ && _); [|reflexivity].
rewrite rec_buffers.
match goal with
| |- context [recb ?piece new_separators] =>
    destruct (recb piece new_separators) as [sub| |]
end; simpl; [|reflexivity|reflexivity].
by rewrite (returned_of_app cfg (buffers ++ [cur]) sub).
Qed.

Lemma loop_buffers (splits : list str) (st : list str * str) :
  loop cfg rec separator new_separators (select st) splits
  = res_map select (buffers_loop cfg recb separator new_separators st splits).
Proof.
revert st. induction splits as [|split splits IH]; intros st.
- reflexivity.
- cbn [loop buffers_loop]. rewrite loop_body_buffers.
  destruct (buffers_loop_body cfg recb separator new_separators st split)
    as [st1| |]; [apply IH|reflexivity|reflexivity].
Qed.
End LoopBuffers.

(** The returned chunks are the selected accumulated buffers, and the two
    calls have the same outcome. *)
Lemma recursive_split_buffers (cfg : config) (fuel : nat) :
  forall (text : str) (separators : list str),
    _recursive_split cfg fuel text separators
    = res_map (returned_of cfg) (accumulated_buffers cfg fuel text separators).
Proof.
induction fuel as [|fuel IH]; intros text separators; [reflexivity|].
destruct separators as [|separator rest]; [reflexivity|].
cbn [_recursive_split accumulated_buffers].
pose proof (loop_buffers cfg (_recursive_split cfg fuel)
              (accumulated_buffers cfg fuel) separator
              (new_separators_of (separator :: rest))
              (fun piece => IH piece _)
              (splits_of separator text) ([], [])) as Hloop.
match goal with
| |- ?run ≫= _ = res_map _ (?runb ≫= _) =>
    assert (run = res_map (fun st : list str * str =>
                             (returned_of cfg (fst st), snd st)) runb)
      as -> by exact Hloop;
    destruct runb as [st| |]; simpl; [|reflexivity..]
end.
by rewrite returned_of_snoc.
Qed.

(** *** Size of the accumulated buffers *)

Section BuffersBound.
Variable cfg : config.
Hypothesis size_pos : 0 < chunk_size cfg.
Hypothesis overlap_pos : 0 < chunk_overlap cfg.
Variable recb : str -> list str -> res (list str).
Variable separator : str.
Variable new_separators : list str.

Let within (buf : str) : Prop := len buf <= chunk_size cfg + chunk_overlap cfg.

Hypothesis recb_ok :
  forall piece r, recb piece new_separators = Ret r -> Forall within r.
Hypothesis last_level : new_separators = [] -> separator = [].

Lemma overlap_of_len (cur : str) :
  len (overlap_of cfg cur) <= chunk_overlap cfg.
Proof.
unfold overlap_of. destruct (Z.ltb_spec (chunk_overlap cfg) (len cur)).
- rewrite len_slice_from_neg; lia.
- assumption.
Qed.

Lemma buffers_loop_body_bound (st st' : list str * str) (split : str) :
  (separator = [] -> length split = 1%nat) ->
  Forall within (fst st) -> within (snd st) ->
  buffers_loop_body cfg recb separator new_separators st split = Ret st' ->
  Forall within (fst st') /\ within (snd st').
Proof.
destruct st as [buffers cur]. unfold buffers_loop_body. cbv zeta. simpl.
intros Hsplit Hb Hw.
assert (Forall within (buffers ++ [cur])) as Hb'.
{ apply Forall_app. split; [exact Hb|]. by constructor. }
set (piece := if truthy separator then split ++ separator else split).
destruct (Z.ltb_spec (chunk_size cfg) (len cur + len piece)) as [Hover|Hfit].
- destruct (Z.ltb_spec (chunk_size cfg) (len piece)) as [Hbig|Hsmall]; simpl.
  + case_bool_decide as Hne.
    * intros H. apply bind_Ret_inv in H as (r & Hr & Hk).
      injection Hk as <-. simpl. split.
      -- apply Forall_app. split; [exact Hb'|]. eapply recb_ok; eassumption.
      -- unfold within, len. simpl. lia.
    * intros H. injection H as <-. simpl. split; [exact Hb'|].
      assert (new_separators = []) as Hnil.
      { destruct (decide (new_separators = [])); [assumption|contradiction]. }
      pose proof (last_level Hnil) as Hsep.
      unfold within. rewrite len_app. pose proof (overlap_of_len cur).
      assert (len piece = 1); [|lia].
      subst piece. rewrite Hsep. simpl. unfold len.
      rewrite (Hsplit Hsep). reflexivity.
  + intros H. injection H as <-. simpl. split; [exact Hb'|].
    unfold within. rewrite len_app. pose proof (overlap_of_len cur). lia.
- intros H. injection H as <-. simpl. split; [assumption|].
  unfold within. rewrite len_app. lia.
Qed.

Lemma buffers_loop_bound (splits : list str) (st st' : list str * str) :
  (separator = [] -> Forall (fun p => length p = 1%nat) splits) ->
  Forall within (fst st) -> within (snd st) ->
  buffers_loop cfg recb separator new_separators st splits = Ret st' ->
  Forall within (fst st') /\ within (snd st').
Proof.
revert st. induction splits as [|split splits IH]; intros st Hsp Hb Hw; simpl.
- intros H. injection H as <-. auto.
- intros H. apply bind_Ret_inv in H as (st1 & H1 & H2).
  apply buffers_loop_body_bound in H1 as [Hb1 Hw1]; try assumption.
  + eapply IH; try eassumption.
    intros Hsep. specialize (Hsp Hsep). inversion Hsp; assumption.
  + intros Hsep. specialize (Hsp Hsep). inversion Hsp; assumption.
Qed.
End BuffersBound.

Lemma last_cons_cons {A} (x y : A) (l : list A) :
  last (x :: y :: l) = last (y :: l).
Proof. reflexivity. Qed.

(** On a hierarchy that ends with the empty separator no accumulated
    buffer exceeds [chunk_size + chunk_overlap]. *)
Lemma accumulated_buffers_bound (cfg : config) (fuel : nat) :
  0 < chunk_size cfg -> 0 < chunk_overlap cfg ->
  forall (separators : list str) (text : str) (buffers : list str),
    last separators = Some [] ->
    accumulated_buffers cfg fuel text separators = Ret buffers ->
    Forall (fun buf => len buf <= chunk_size cfg + chunk_overlap cfg) buffers.
Proof.
intros Hsize Hov.
induction fuel as [|fuel IH]; intros separators text buffers Hlast H.
- discriminate.
- destruct separators as [|separator rest]; [discriminate|].
  cbn [accumulated_buffers] in H. rewrite new_separators_cons in H.
  apply bind_Ret_inv in H as (st & Hst & Hk). injection Hk as <-.
  apply (buffers_loop_bound cfg Hsize Hov) in Hst as [Hb Hw].
  + apply Forall_app. split; [exact Hb|]. by constructor.
  + intros piece r Hr. destruct rest as [|s rest'].
    * destruct fuel; discriminate.
    * eapply IH; [|exact Hr]. rewrite last_cons_cons in Hlast. exact Hlast.
  + intros ->. simpl in Hlast. congruence.
  + intros ->. unfold splits_of. simpl. apply chars_length_one.
  + constructor.
  + simpl. unfold len. simpl. lia.
Qed.

(** Stripping and selecting never lengthen: the returned chunks obey the
    bound of the buffers. *)
Lemma returned_of_bound (cfg : config) (bound : Z) (buffers : list str) :
  Forall (fun buf => len buf <= bound) buffers ->
  Forall (fun c => len c <= bound) (returned_of cfg buffers).
Proof.
intros Hb. unfold returned_of. apply Forall_fmap, Forall_forall.
intros buf Hbuf. apply list_elem_of_filter in Hbuf as [_ Hbuf].
rewrite Forall_forall in Hb. specialize (Hb buf Hbuf).
simpl. pose proof (len_strip buf). lia.
Qed.

(** *** Claims about the chunker *)

(** C1, as stated, fails: with [chunk_size = 10], [chunk_overlap = 5] and
    [min_chunk_size = 1] the text ["aaaa bbbb cccc"] is split without ever
    reaching the character level (four levels of recursion give the
    result), and yet one returned chunk is longer than [chunk_size] and
    another one is shorter than [min_chunk_size]. *)
Lemma split_text_bounds_counterexample :
  0 < chunk_size (Config 10 5 1) /\ 0 <= chunk_overlap (Config 10 5 1) /\
  0 <= min_chunk_size (Config 10 5 1) /\
  exists chunks,
    split_text (Config 10 5 1) (lit "aaaa bbbb cccc") = Ret chunks /\
    _recursive_split (Config 10 5 1) 4 (lit "aaaa bbbb cccc")
      DEFAULT_SEPARATORS = Ret chunks /\
    ~ Forall (fun c => len c <= chunk_size (Config 10 5 1)) chunks /\
    ~ Forall (fun c => min_chunk_size (Config 10 5 1) <= len c) chunks.
Proof.
repeat (split; [simpl; lia|]).
eexists. split; [vm_compute; reflexivity|].
split; [vm_compute; reflexivity|].
split; intros H.
- apply Forall_inv_tail, Forall_inv in H. vm_compute in H. apply H. reflexivity.
- do 3 apply Forall_inv_tail in H. apply Forall_inv in H.
  vm_compute in H. apply H. reflexivity.
Qed.

(** C1, amended: for [chunk_size > 0] and [chunk_overlap > 0] the split of
    any text returns, and what it returns is exactly the stripped forms,
    in order, of the accumulated buffers that are at least
    [min_chunk_size] characters long: a shorter buffer is dropped, never
    returned.  Every accumulated buffer, hence every returned string, is
    at most [chunk_size + chunk_overlap] characters long. *)
Theorem split_text_chunk_bounds (cfg : config) (text : str) :
  0 < chunk_size cfg -> 0 < chunk_overlap cfg ->
  exists buffers,
    split_text_buffers cfg text = Ret buffers /\
    split_text cfg text
    = Ret (strip <$> filter (fun buf => min_chunk_size cfg <= len buf)
                            buffers) /\
    Forall (fun buf => len buf <= chunk_size cfg + chunk_overlap cfg)
           buffers /\
    (forall chunks, split_text cfg text = Ret chunks ->
       Forall (fun c => len c <= chunk_size cfg + chunk_overlap cfg) chunks).
Proof.
intros Hsize Hov.
destruct (recursive_split_total cfg (length DEFAULT_SEPARATORS)
            DEFAULT_SEPARATORS text) as [chunks Hrun];
  [discriminate|reflexivity|].
pose proof (recursive_split_buffers cfg (length DEFAULT_SEPARATORS) text
              DEFAULT_SEPARATORS) as Hsim.
fold (split_text cfg text) in Hrun, Hsim.
fold (split_text_buffers cfg text) in Hsim.
destruct (split_text_buffers cfg text) as [buffers| |] eqn:Hbuf;
  simpl in Hsim; [|congruence|congruence].
assert (Forall (fun buf => len buf <= chunk_size cfg + chunk_overlap cfg)
               buffers) as Hbound.
{ eapply (accumulated_buffers_bound cfg _ Hsize Hov);
    [|exact Hbuf]. reflexivity. }
exists buffers. split; [reflexivity|]. split; [exact Hsim|].
split; [exact Hbound|].
intros chunks' Hrun'. rewrite Hsim in Hrun'. injection Hrun' as <-.
by apply returned_of_bound.
Qed.

Lemma split_text_chunk_bounds_witness :
  exists buffers,
    split_text_buffers (Config 10 5 1) (lit "aaaa bbbb cccc") = Ret buffers /\
    split_text (Config 10 5 1) (lit "aaaa bbbb cccc")
    = Ret (strip <$> filter (fun buf => 1 <= len buf) buffers) /\
    Forall (fun buf => len buf <= 10 + 5) buffers /\
    (forall chunks,
       split_text (Config 10 5 1) (lit "aaaa bbbb cccc") = Ret chunks ->
       Forall (fun c => len c <= 10 + 5) chunks).
Proof.
apply (split_text_chunk_bounds (Config 10 5 1) (lit "aaaa bbbb cccc"));
  simpl; lia.
Defined.

(** The buffers of that run.  Three levels hand the whole text down with
    an empty buffer; the level of the space separator accumulates three
    buffers, of 10, 13 and 6 characters; then each level tests its
    remaining content, which is two line feeds on the level of the line
    feed: the empty chunk of the result. *)
Example split_text_buffers_run :
  split_text_buffers (Config 10 5 1) (lit "aaaa bbbb cccc")
  = Ret [lit ""; lit ""; lit ""; lit "aaaa bbbb ";
         lit "bbbb cccc" ++ [newline] ++ lit ". ";
         lit "cc" ++ [newline] ++ lit ".  ";
         lit ""; [newline; newline]; lit ""] /\
  split_text (Config 10 5 1) (lit "aaaa bbbb cccc")
  = Ret [lit "aaaa bbbb"; lit "bbbb cccc" ++ [newline] ++ lit ".";
         lit "cc" ++ [newline] ++ lit "."; lit ""].
Proof. split; vm_compute; reflexivity. Qed.

(** A text shorter than [min_chunk_size] gives one buffer, the text and
    the paragraph separator, which is dropped. *)
Example split_text_short_dropped :
  split_text_buffers default_config (lit "a")
  = Ret [lit "a" ++ [newline; newline]] /\
  split_text default_config (lit "a") = Ret [].
Proof. split; vm_compute; reflexivity. Qed.

(** With [chunk_overlap = 0] the slice [current_chunk[-0:]] is the whole
    buffer, so the buffer is never reset: the chunks grow with the text. *)
Example split_text_zero_overlap :
  split_text (Config 10 0 1) (lit "aaaa bbbb cccc dddd")
  = Ret [lit "aaaa bbbb"; lit "aaaa bbbb cccc";
         lit "aaaa bbbb cccc dddd" ++ [newline] ++ lit ".";
         lit "aaaa bbbb cccc dddd" ++ [newline] ++ lit ".";
         lit ""].
Proof. vm_compute. reflexivity. Qed.

(** C8: the recursive split terminates.  Every recursive call is made on
    [new_separators], strictly shorter than [separators]; hence a depth of
    [length separators] is enough for a result, which no deeper bound
    changes.  The call of [_chunk_document] on the default hierarchy
    returns.  On the last level the splits of the empty separator are the
    single characters of the text, and the call returns at depth one,
    that is without any recursive call. *)
Theorem recursive_split_terminates (cfg : config) (text : str)
    (separators : list str) (fuel : nat) :
  separators <> [] -> (length separators <= fuel)%nat ->
  (length (new_separators_of separators) < length separators)%nat /\
  (exists chunks, forall fuel', (fuel <= fuel')%nat ->
     _recursive_split cfg fuel' text separators = Ret chunks) /\
  (exists chunks, split_text cfg text = Ret chunks) /\
  (splits_of (lit "") text = chars text /\
   Forall (fun p => length p = 1%nat) (splits_of (lit "") text) /\
   exists chunks, _recursive_split cfg 1 text [lit ""] = Ret chunks).
Proof.
intros Hne Hlen. split; [apply new_separators_shorter; exact Hne|].
split.
- destruct (recursive_split_total cfg fuel separators text Hne Hlen)
    as [chunks Hrun].
  exists chunks. intros fuel' Hle.
  eapply recursive_split_fuel_mono; eassumption.
- split.
  + apply recursive_split_total; [discriminate|reflexivity].
  + split; [reflexivity|]. split; [apply chars_length_one|].
    apply recursive_split_total; [discriminate|reflexivity].
Qed.

Lemma recursive_split_terminates_witness :
  (length (new_separators_of DEFAULT_SEPARATORS)
   < length DEFAULT_SEPARATORS)%nat /\
  (exists chunks, forall fuel', (5 <= fuel')%nat ->
     _recursive_split default_config fuel' (lit "aaaa bbbb cccc")
       DEFAULT_SEPARATORS = Ret chunks) /\
  (exists chunks, split_text default_config (lit "aaaa bbbb cccc") = Ret chunks) /\
  (splits_of (lit "") (lit "aaaa bbbb cccc") = chars (lit "aaaa bbbb cccc") /\
   Forall (fun p => length p = 1%nat) (splits_of (lit "") (lit "aaaa bbbb cccc")) /\
   exists chunks,
     _recursive_split default_config 1 (lit "aaaa bbbb cccc") [lit ""]
     = Ret chunks).
Proof.
apply (recursive_split_terminates default_config (lit "aaaa bbbb cccc")
         DEFAULT_SEPARATORS 5); [discriminate|simpl; lia].
Defined.

End DocumentProcessorFacts.

(** ** Deduplication and reranking *)

Module SrcRetrievalAgentFacts.
Import PyStr PyVal SrcRetrievalAgent.

(** *** Deduplication *)

Lemma dedup_loop_app (chunks : list chunk) :
  forall (seen : gset value) (unique : list chunk),
    dedup_loop seen unique chunks = unique ++ dedup_loop seen [] chunks.
Proof.
induction chunks as [|c rest IH]; intros seen unique; simpl.
- by rewrite app_nil_r.
- destruct (decide (chunk_key c ∈ seen)); [apply IH|].
  rewrite (IH _ (unique ++ [c])), (IH _ ([] ++ [c])). by rewrite <- app_assoc.
Qed.

(** A chunk whose key has been seen contributes nothing, wherever it
    stands in the rest of the input. *)
Lemma dedup_loop_seen_skip (l l' : list chunk) (c : chunk) :
  forall (seen : gset value) (unique : list chunk),
    chunk_key c ∈ seen ->
    dedup_loop seen unique (l ++ c :: l') = dedup_loop seen unique (l ++ l').
Proof.
induction l as [|x l IH]; intros seen unique Hin; simpl.
- destruct (decide (chunk_key c ∈ seen)); [reflexivity|contradiction].
- destruct (decide (chunk_key x ∈ seen)); apply IH; set_solver.
Qed.

Lemma dedup_loop_same_key (l1 l2 l3 : list chunk) (c1 c2 : chunk) :
  chunk_key c1 = chunk_key c2 ->
  forall (seen : gset value) (unique : list chunk),
    dedup_loop seen unique (l1 ++ c1 :: l2 ++ c2 :: l3)
    = dedup_loop seen unique (l1 ++ c1 :: l2 ++ l3).
Proof.
intros Hk. induction l1 as [|x l1 IH]; intros seen unique; simpl.
- destruct (decide (chunk_key c1 ∈ seen)).
  + apply dedup_loop_seen_skip. by rewrite <- Hk.
  + apply dedup_loop_seen_skip. rewrite <- Hk. set_solver.
- destruct (decide (chunk_key x ∈ seen)); apply IH.
Qed.

Lemma dedup_loop_keeps_new (l1 l2 : list chunk) (c : chunk) :
  Forall (fun x => chunk_key x <> chunk_key c) l1 ->
  forall (seen : gset value) (unique : list chunk),
    chunk_key c ∉ seen ->
    c ∈ dedup_loop seen unique (l1 ++ c :: l2).
Proof.
induction l1 as [|x l1 IH]; intros Hall seen unique Hnot; simpl.
- destruct (decide (chunk_key c ∈ seen)); [contradiction|].
  rewrite dedup_loop_app. set_solver.
- inversion Hall as [|? ? Hx Hrest]; subst.
  destruct (decide (chunk_key x ∈ seen)); apply IH; try assumption.
  intros [Heq%elem_of_singleton|Hin]%elem_of_union; [congruence|contradiction].
Qed.

(** The keys of the output are pairwise distinct. *)
Lemma dedup_loop_NoDup (chunks : list chunk) :
  forall (seen : gset value) (unique : list chunk),
    NoDup (chunk_key <$> unique) ->
    (forall c, c ∈ unique -> chunk_key c ∈ seen) ->
    NoDup (chunk_key <$> dedup_loop seen unique chunks).
Proof.
induction chunks as [|c rest IH]; intros seen unique Hnd Hseen; simpl.
- exact Hnd.
- destruct (decide (chunk_key c ∈ seen)) as [Hin|Hnot].
  + by apply IH.
  + apply IH.
    * rewrite fmap_app. apply NoDup_app. split; [exact Hnd|].
      split; [|apply NoDup_singleton].
      intros k Hk Hk'. apply list_elem_of_fmap in Hk as (y & -> & Hy).
      apply list_elem_of_singleton in Hk'. apply Hnot.
      rewrite <- Hk'. by apply Hseen.
    * intros y Hy. apply elem_of_app in Hy as [Hy|Hy].
      -- apply Hseen in Hy. set_solver.
      -- apply list_elem_of_singleton in Hy as ->. set_solver.
Qed.

Lemma idless_key (c : chunk) : idless c -> chunk_key c = VStr "".
Proof. intros [H1 H2]. unfold chunk_key, get. by rewrite H1, H2. Qed.

Section OneKey.
Variable P : chunk -> Prop.
Context `{forall c, Decision (P c)}.
Variable k : value.
Hypothesis P_key : forall c, P c -> chunk_key c = k.

Lemma filter_key_absent (l : list chunk) :
  k ∉ (chunk_key <$> l) -> filter P l = [].
Proof.
induction l as [|c l IH]; intros Hk; [reflexivity|].
rewrite filter_cons. destruct (decide (P c)) as [Hc|Hc].
- exfalso. apply Hk. rewrite fmap_cons, (P_key c Hc). left.
- apply IH. intros Hin. apply Hk. rewrite fmap_cons. by right.
Qed.

Lemma NoDup_filter_one_key (l : list chunk) :
  NoDup (chunk_key <$> l) -> (length (filter P l) <= 1)%nat.
Proof.
induction l as [|c l IH]; [simpl; lia|].
rewrite fmap_cons. intros Hnd. apply NoDup_cons in Hnd as [Hc Hl].
rewrite filter_cons. destruct (decide (P c)) as [Hp|Hp]; [|auto].
rewrite filter_key_absent; [simpl; lia|].
by rewrite <- (P_key c Hp).
Qed.
End OneKey.

(** The key is the empty string exactly for the chunks without
    identifier and for those that carry the empty identifier. *)
Lemma chunk_key_empty (c : chunk) :
  chunk_key c = VStr "" <-> idless c \/ empty_id c.
Proof.
unfold chunk_key, get, idless, empty_id.
destruct (c !! "chunk_id") as [v|]; simpl.
- split; [intros ->; by right; left|].
  intros [[? _]|[[= ->]|[? _]]]; congruence.
- destruct (c !! "id") as [w|]; simpl.
  + split; [intros ->; right; by right|].
    intros [[_ ?]|[?|[_ [= ->]]]]; congruence.
  + split; [intros _; by left|reflexivity].
Qed.

(** Once the empty key has been seen, no chunk without identifier is
    added. *)
Lemma dedup_loop_empty_seen (chunks : list chunk) :
  forall (seen : gset value) (unique : list chunk),
    VStr "" ∈ seen ->
    filter idless (dedup_loop seen unique chunks) = filter idless unique.
Proof.
induction chunks as [|c rest IH]; intros seen unique Hseen; simpl.
- reflexivity.
- destruct (decide (chunk_key c ∈ seen)) as [Hin|Hnot]; [by apply IH|].
  rewrite IH by set_solver. rewrite filter_app.
  rewrite filter_cons_False; [by rewrite filter_nil, app_nil_r|].
  intros Hc. apply Hnot. by rewrite (idless_key c Hc).
Qed.

(** A chunk with the empty identifier among chunks that all have an
    identifier takes the empty key: no chunk without identifier is added
    after it either. *)
Lemma dedup_loop_empty_id_first (l1 more : list chunk) :
  Forall (fun c => ~ idless c) l1 -> Exists empty_id l1 ->
  forall (seen : gset value) (unique : list chunk),
    filter idless (dedup_loop seen unique (l1 ++ more))
    = filter idless unique.
Proof.
induction l1 as [|x l1 IH]; intros Hall Hex seen unique.
- by apply Exists_nil in Hex.
- apply Forall_cons in Hall as [Hx Hall]. simpl.
  destruct (decide (VStr "" ∈ seen)) as [Hseen|Hfresh].
  { destruct (decide (chunk_key x ∈ seen)).
    - by apply dedup_loop_empty_seen.
    - rewrite dedup_loop_empty_seen by set_solver.
      rewrite filter_app, filter_cons_False by exact Hx.
      by rewrite filter_nil, app_nil_r. }
  apply Exists_cons in Hex as [Hex|Hex].
  + assert (chunk_key x = VStr "") as Hk
      by (apply chunk_key_empty; by right).
    destruct (decide (chunk_key x ∈ seen)) as [Hin|_]; [by rewrite Hk in Hin|].
    rewrite dedup_loop_empty_seen by set_solver.
    rewrite filter_app, filter_cons_False by exact Hx.
    by rewrite filter_nil, app_nil_r.
  + destruct (decide (chunk_key x ∈ seen)); [by apply IH|].
    rewrite IH by assumption.
    rewrite filter_app, filter_cons_False by exact Hx.
    by rewrite filter_nil, app_nil_r.
Qed.

(** Otherwise the first chunk without identifier takes the empty key and
    is the only such chunk of the output. *)
Lemma dedup_loop_idless_first (l1 rest : list chunk) (c1 : chunk) :
  Forall (fun c => ~ idless c) l1 -> ~ Exists empty_id l1 -> idless c1 ->
  forall (seen : gset value) (unique : list chunk),
    VStr "" ∉ seen ->
    filter idless (dedup_loop seen unique (l1 ++ c1 :: rest))
    = filter idless unique ++ [c1].
Proof.
induction l1 as [|x l1 IH]; intros Hall Hex H1 seen unique Hfresh; simpl.
- rewrite (idless_key c1 H1).
  destruct (decide (VStr "" ∈ seen)); [contradiction|].
  rewrite dedup_loop_empty_seen by set_solver.
  by rewrite filter_app, filter_cons_True, filter_nil.
- apply Forall_cons in Hall as [Hx Hall].
  assert (chunk_key x <> VStr "") as Hk.
  { intros Hk. apply chunk_key_empty in Hk as [Hk|Hk]; [contradiction|].
    apply Hex. by left. }
  assert (~ Exists empty_id l1) as Hex' by (intros H; apply Hex; by right).
  destruct (decide (chunk_key x ∈ seen)); [by apply IH|].
  rewrite IH; try assumption.
  + rewrite filter_app, filter_cons_False by exact Hx.
    by rewrite filter_nil, app_nil_r.
  + intros [Heq%elem_of_singleton|Hin]%elem_of_union;
      [congruence|contradiction].
Qed.

(** C10, as stated, fails: a chunk without identifier that comes after a
    chunk whose ['chunk_id'] is the empty string is discarded although it
    is the first (and only) chunk without identifier; the output holds no
    chunk without identifier at all. *)
Lemma dedup_idless_counterexample :
  idless (<["content" := VStr "first"]> ∅) /\
  ~ idless (stored_chunk "" "alpha") /\
  _deduplicate_chunks
    [stored_chunk "" "alpha"; <["content" := VStr "first"]> ∅]
  = [stored_chunk "" "alpha"] /\
  <["content" := VStr "first"]> ∅
  ∉ _deduplicate_chunks
      [stored_chunk "" "alpha"; <["content" := VStr "first"]> ∅].
Proof.
split; [split; reflexivity|].
split; [intros [H _]; vm_compute in H; discriminate|].
assert (_deduplicate_chunks
          [stored_chunk "" "alpha"; <["content" := VStr "first"]> ∅]
        = [stored_chunk "" "alpha"]) as Hrun by (vm_compute; reflexivity).
split; [exact Hrun|]. rewrite Hrun.
intros Hin%list_elem_of_singleton.
apply (f_equal (fun c : chunk => c !! "chunk_id")) in Hin.
vm_compute in Hin. discriminate.
Qed.

(** C10, amended: chunks without ['chunk_id'] and without ['id'] all get
    the key [""], which they share with the chunks that carry the empty
    string as identifier.  Let [c1] be the first chunk without
    identifier.  It is kept, and it is the only chunk without identifier
    of the output, when no chunk before it carries the empty identifier;
    when one does, the output holds no chunk without identifier.  A later
    chunk without identifier is discarded whatever it holds: the output
    is the output of the input without it. *)
Theorem dedup_idless_first_only (l1 rest : list chunk) (c1 : chunk) :
  Forall (fun c => ~ idless c) l1 -> idless c1 ->
  (forall c, idless c -> chunk_key c = VStr "") /\
  filter idless (_deduplicate_chunks (l1 ++ c1 :: rest))
  = (if decide (Exists empty_id l1) then [] else [c1]) /\
  (forall l2 c2 l3, idless c2 ->
     _deduplicate_chunks (l1 ++ c1 :: l2 ++ c2 :: l3)
     = _deduplicate_chunks (l1 ++ c1 :: l2 ++ l3)).
Proof.
intros Hall H1. split; [exact idless_key|]. split.
- unfold _deduplicate_chunks.
  destruct (decide (Exists empty_id l1)) as [Hex|Hex].
  + by rewrite dedup_loop_empty_id_first.
  + rewrite dedup_loop_idless_first by (assumption || set_solver).
    reflexivity.
- intros l2 c2 l3 H2. apply dedup_loop_same_key.
  by rewrite (idless_key c1 H1), (idless_key c2 H2).
Qed.

Lemma dedup_idless_first_only_witness :
  filter idless
    (_deduplicate_chunks
       ([stored_chunk "d_chunk_0" "alpha"]
        ++ <["content" := VStr "first"]> ∅
        :: [stored_chunk "d_chunk_1" "beta";
            <["content" := VStr "second"]> ∅]))
  = [<["content" := VStr "first"]> ∅].
Proof.
refine (proj1 (proj2 (dedup_idless_first_only
                        [stored_chunk "d_chunk_0" "alpha"]
                        [stored_chunk "d_chunk_1" "beta";
                         <["content" := VStr "second"]> ∅]
                        (<["content" := VStr "first"]> ∅) _ _))).
- constructor; [|constructor]. intros [H _]. vm_compute in H. discriminate.
- split; reflexivity.
Defined.

(** *** Reranking *)

Example py_int_examples :
  map (fun s => py_int (lit s))
      [" 12 "; "1_000"; "-7"; "007"; "1__0"; "_1"; "1_"; ""; "+"; "1 2"]%string
  = [Some 12; Some 1000; Some (-7); Some 7; None; None; None; None; None; None].
Proof. reflexivity. Qed.

Example parse_ranking_spaced :
  parse_ranking (lit " 2, 0,4 ,1,3 ") = Some [2; 0; 4; 1; 3].
Proof. reflexivity. Qed.

Example parse_ranking_trailing_comma : parse_ranking (lit "2,0,") = None.
Proof. reflexivity. Qed.

Example parse_ranking_prose : parse_ranking (lit "Ranking: 2,0") = None.
Proof. reflexivity. Qed.

Lemma rerank_small (reply : option str) (chunks : list chunk) :
  (length chunks <= rerank_top_k)%nat ->
  _rerank_chunks reply chunks = Returned chunks.
Proof.
intros Hle. unfold _rerank_chunks. destruct chunks as [|c rest]; [reflexivity|].
destruct (Nat.leb_spec (length (c :: rest)) rerank_top_k); [reflexivity|lia].
Qed.

(** A reply that cannot be parsed, or no reply at all, leaves the order
    as it was. *)
Lemma rerank_unparsable (reply : option str) (chunks : list chunk) :
  forallb content_sliceable chunks = true ->
  match reply with
  | Some response => parse_ranking response = None
  | None => True
  end ->
  _rerank_chunks reply chunks = Returned chunks.
Proof.
intros Hs Hr. unfold _rerank_chunks. destruct chunks as [|c rest]; [reflexivity|].
destruct (_ <=? _)%nat; [reflexivity|]. rewrite Hs. simpl.
destruct reply as [response|]; [|reflexivity]. by rewrite Hr.
Qed.

(** An index outside [[0, n)] is ignored. *)
Lemma pick_ranked_out_of_range (chunks reranked : list chunk) (idx : Z)
    (ranking : list Z) :
  idx < 0 \/ Z.of_nat (length chunks) <= idx ->
  pick_ranked chunks reranked (idx :: ranking)
  = pick_ranked chunks reranked ranking.
Proof.
intros Hout. simpl.
destruct (Z.leb_spec 0 idx), (Z.ltb_spec idx (Z.of_nat (length chunks)));
  simpl; try reflexivity; lia.
Qed.

Lemma pick_ranked_subset (chunks : list chunk) (ranking : list Z) :
  forall (reranked : list chunk) (c : chunk),
    c ∈ pick_ranked chunks reranked ranking -> c ∈ reranked \/ c ∈ chunks.
Proof.
induction ranking as [|idx ranking IH]; intros reranked c; simpl; [auto|].
destruct (_ && _); [|apply IH].
destruct (chunks !! Z.to_nat idx) as [x|] eqn:Hx; [|apply IH].
intros Hc. apply IH in Hc as [Hc|Hc]; [|auto].
apply elem_of_app in Hc as [Hc|Hc]; [auto|].
apply list_elem_of_singleton in Hc as ->. right.
eapply list_elem_of_lookup_2; eassumption.
Qed.

Lemma add_missing_keeps (chunks : list chunk) :
  forall (reranked : list chunk) (c : chunk),
    c ∈ reranked -> c ∈ add_missing reranked chunks.
Proof.
induction chunks as [|x rest IH]; intros reranked c Hc; simpl; [exact Hc|].
destruct (decide (x ∈ reranked)); apply IH; [exact Hc|].
apply elem_of_app. by left.
Qed.

(** No chunk is dropped by the second loop. *)
Lemma add_missing_complete (chunks : list chunk) :
  forall (reranked : list chunk) (c : chunk),
    c ∈ chunks -> c ∈ add_missing reranked chunks.
Proof.
induction chunks as [|x rest IH]; intros reranked c Hc; simpl.
- by apply elem_of_nil in Hc.
- apply elem_of_cons in Hc as [->|Hc].
  + destruct (decide (x ∈ reranked)); apply add_missing_keeps; [assumption|].
    apply elem_of_app. right. apply list_elem_of_singleton. reflexivity.
  + destruct (decide (x ∈ reranked)); by apply IH.
Qed.

Lemma add_missing_subset (chunks : list chunk) :
  forall (reranked : list chunk) (c : chunk),
    c ∈ add_missing reranked chunks -> c ∈ reranked \/ c ∈ chunks.
Proof.
induction chunks as [|x rest IH]; intros reranked c; simpl; [auto|].
destruct (decide (x ∈ reranked)); intros Hc; apply IH in Hc as [Hc|Hc].
- auto.
- right. by apply elem_of_cons; right.
- apply elem_of_app in Hc as [Hc|Hc]; [auto|].
  apply list_elem_of_singleton in Hc as ->. right. apply elem_of_cons. by left.
- right. by apply elem_of_cons; right.
Qed.

(** Whatever the reply, the returned list holds the input chunks and
    nothing else. *)
Lemma rerank_same_elements (reply : option str) (chunks out : list chunk) :
  _rerank_chunks reply chunks = Returned out ->
  forall c, c ∈ out <-> c ∈ chunks.
Proof.
unfold _rerank_chunks. destruct chunks as [|c0 rest].
{ intros [= <-]. reflexivity. }
remember (c0 :: rest) as chunks eqn:E. clear E c0 rest.
destruct (_ <=? _)%nat; [intros [= <-]; reflexivity|].
destruct (negb _); [discriminate|].
destruct reply as [response|]; [|intros [= <-]; reflexivity].
destruct (parse_ranking response) as [ranking|]; [|intros [= <-]; reflexivity].
intros [= <-] c. split.
- intros Hc. apply add_missing_subset in Hc as [Hc|Hc]; [|exact Hc].
  apply pick_ranked_subset in Hc as [Hc|Hc]; [|exact Hc].
  by apply elem_of_nil in Hc.
- apply add_missing_complete.
Qed.

(** **** When no index is repeated *)

Lemma pick_ranked_app (chunks : list chunk) (ranking : list Z) :
  forall reranked,
    pick_ranked chunks reranked ranking
    = reranked ++ pick_ranked chunks [] ranking.
Proof.
induction ranking as [|idx ranking IH]; intros reranked; simpl.
- by rewrite app_nil_r.
- destruct (_ && _); [|apply IH].
  destruct (chunks !! Z.to_nat idx) as [c|]; [|apply IH].
  rewrite (IH (reranked ++ [c])), (IH [c]). by rewrite <- app_assoc.
Qed.

Lemma pick_ranked_elem (chunks : list chunk) (ranking : list Z) (c : chunk) :
  c ∈ pick_ranked chunks [] ranking ->
  exists idx, idx ∈ ranking /\ in_range (length chunks) idx /\
              chunks !! Z.to_nat idx = Some c.
Proof.
induction ranking as [|idx ranking IH]; simpl.
- intros Hc. by apply elem_of_nil in Hc.
- destruct (Z.leb_spec 0 idx) as [Hlo|Hlo];
    destruct (Z.ltb_spec idx (Z.of_nat (length chunks))) as [Hhi|Hhi]; simpl;
    try (intros Hc; apply IH in Hc as (i & Hi & Hr & Hl);
         exists i; split; [by right|auto]).
  destruct (chunks !! Z.to_nat idx) as [x|] eqn:Hx.
  + rewrite pick_ranked_app. intros Hc.
    apply elem_of_app in Hc as [Hc|Hc].
    * apply list_elem_of_singleton in Hc as ->.
      exists idx. split; [by left|]. split; [split; assumption|exact Hx].
    * apply IH in Hc as (i & Hi & Hr & Hl). exists i. split; [by right|auto].
  + intros Hc. apply IH in Hc as (i & Hi & Hr & Hl).
    exists i. split; [by right|auto].
Qed.

Lemma pick_ranked_NoDup (chunks : list chunk) (ranking : list Z) :
  NoDup chunks ->
  NoDup (filter (in_range (length chunks)) ranking) ->
  NoDup (pick_ranked chunks [] ranking).
Proof.
intros Hnd. induction ranking as [|idx ranking IH]; simpl; [constructor|].
rewrite filter_cons. destruct (decide (in_range (length chunks) idx)) as [Hr|Hr].
- intros Hidx. apply NoDup_cons in Hidx as [Hfresh Hrest].
  destruct Hr as [Hlo Hhi].
  destruct (Z.leb_spec 0 idx); [|lia].
  destruct (Z.ltb_spec idx (Z.of_nat (length chunks))); [|lia]. simpl.
  destruct (chunks !! Z.to_nat idx) as [x|] eqn:Hx; [|by apply IH].
  rewrite pick_ranked_app. simpl. apply NoDup_cons. split; [|by apply IH].
  intros Hin. apply pick_ranked_elem in Hin as (i & Hi & Hir & Hl).
  assert (Z.to_nat idx = Z.to_nat i) as Heq
    by exact (NoDup_lookup chunks _ _ x Hnd Hx Hl).
  destruct Hir as [Hilo Hihi]. assert (idx = i) as -> by lia.
  apply Hfresh. apply list_elem_of_filter. split; [split; assumption|exact Hi].
- intros Hrest.
  destruct (Z.leb_spec 0 idx);
    destruct (Z.ltb_spec idx (Z.of_nat (length chunks))); simpl;
    try (by apply IH).
  exfalso. apply Hr. split; assumption.
Qed.

Lemma add_missing_NoDup (chunks : list chunk) :
  forall reranked, NoDup reranked -> NoDup (add_missing reranked chunks).
Proof.
induction chunks as [|x rest IH]; intros reranked Hnd; simpl; [exact Hnd|].
destruct (decide (x ∈ reranked)) as [Hin|Hnot]; apply IH; [exact Hnd|].
apply NoDup_app. split; [exact Hnd|]. split; [|apply NoDup_singleton].
intros y Hy Hy'. apply list_elem_of_singleton in Hy' as ->. contradiction.
Qed.

(** For pairwise distinct candidates and a reply that repeats no
    in-range index, the returned list is a permutation of the input. *)
Lemma rerank_permutation (reply : option str) (chunks out : list chunk) :
  NoDup chunks ->
  (forall response ranking,
     reply = Some response -> parse_ranking response = Some ranking ->
     NoDup (filter (in_range (length chunks)) ranking)) ->
  _rerank_chunks reply chunks = Returned out ->
  out ≡ₚ chunks.
Proof.
intros Hnd Hrank Hrun.
apply NoDup_Permutation; [|exact Hnd|by apply (rerank_same_elements reply)].
revert Hrun. unfold _rerank_chunks. destruct chunks as [|c0 rest].
{ intros [= <-]. constructor. }
remember (c0 :: rest) as chunks eqn:E. clear E c0 rest.
destruct (_ <=? _)%nat; [by intros [= <-]|].
destruct (negb _); [discriminate|].
destruct reply as [response|]; [|by intros [= <-]].
destruct (parse_ranking response) as [ranking|] eqn:Hp; [|by intros [= <-]].
intros [= <-]. apply add_missing_NoDup, pick_ranked_NoDup; [exact Hnd|].
by apply (Hrank response).
Qed.

(** C2 at a reply that names an index twice: the six candidates are
    pairwise distinct, the reply ["0,0"] parses to the ranking [0, 0], and
    the returned list holds the first candidate twice, seven entries for
    six candidates. *)
Theorem rerank_repeated_index_duplicates :
  NoDup six_chunks /\
  parse_ranking (lit "0,0") = Some [0; 0] /\
  _rerank_chunks (Some (lit "0,0")) six_chunks
  = Returned (stored_chunk "d_chunk_0" "alpha" :: six_chunks) /\
  ~ NoDup (stored_chunk "d_chunk_0" "alpha" :: six_chunks).
Proof.
assert (NoDup six_chunks) as Hnd.
{ apply (bool_decide_unpack _). vm_compute. reflexivity. }
split; [exact Hnd|]. split; [vm_compute; reflexivity|]. split.
- vm_compute. reflexivity.
- intros H. apply NoDup_cons in H as [H _]. apply H. left.
Qed.


End SrcRetrievalAgentFacts.

(** ** The cache *)

Module CacheServiceFacts.
Import CacheService.

Section Service.
Variable sha256_hexdigest : string -> string.
Variable payload : Type.
Variable json_dumps : payload -> string.
Variable json_loads : string -> payload.

Let key := _generate_cache_key sha256_hexdigest.
Let get := get_cached_response sha256_hexdigest payload json_loads.
Let put := cache_response sha256_hexdigest payload json_dumps.

Lemma ttl_or_default_pos (ttl : Z) : 0 < ttl -> ttl_or_default (Some ttl) = ttl.
Proof.
intros Hpos. unfold ttl_or_default.
destruct (Z.eqb_spec ttl 0); [lia|reflexivity].
Qed.

Lemma put_lookup (d : db) (now : Z) (query : string) (v : payload)
    (course_id : option string) (ttl : option Z) :
  query_cache (put d now query v course_id ttl) !! key query course_id
  = Some (QueryRow (json_dumps v) course_id
            (Some (now + ttl_or_default ttl)) 0).
Proof. unfold put, cache_response, key. simpl. apply lookup_insert_eq. Qed.

Lemma get_missing (d : db) (now : Z) (query : string)
    (course_id : option string) :
  query_cache d !! key query course_id = None ->
  get d now query course_id = (None, d).
Proof.
intros Hnone. unfold get, get_cached_response. fold (key query course_id).
by rewrite Hnone.
Qed.

(** The sweep of [clear_expired] changes no answer: a row it deletes was
    already refused by the read. *)
Lemma get_after_sweep (d : db) (now : Z) (query : string)
    (course_id : option string) :
  fst (get (clear_expired d now) now query course_id)
  = fst (get d now query course_id).
Proof.
unfold get, get_cached_response, clear_expired. simpl.
fold (key query course_id).
destruct (query_cache d !! key query course_id) as [row|] eqn:Hrow.
- destruct (swept now row) eqn:Hs.
  + assert (filter (fun kr => swept now kr.2 = false) (query_cache d)
              !! key query course_id = None) as ->.
    { apply map_lookup_filter_None. right. intros row' Hrow'. simpl.
      congruence. }
    unfold swept in Hs. unfold live.
    destruct (expires_at row) as [e|]; [|discriminate].
    destruct (Z.ltb_spec e now); [|discriminate].
    destruct (Z.ltb_spec now e); [lia|reflexivity].
  + assert (filter (fun kr => swept now kr.2 = false) (query_cache d)
              !! key query course_id = Some row) as ->.
    { apply map_lookup_filter_Some. split; [exact Hrow|exact Hs]. }
    destruct (live now row); reflexivity.
- assert (filter (fun kr => swept now kr.2 = false) (query_cache d)
            !! key query course_id = None) as ->; [|reflexivity].
  apply map_lookup_filter_None. by left.
Qed.

Let put_or_raise :=
  cache_response_or_raise sha256_hexdigest payload json_dumps.

(** C3, amended: [cache_response] with a positive [ttl] at instant
    [put_time] stores the entry exactly when [put_time + ttl] is still a
    [datetime] (not after [datetime.max]) and raises [OverflowError]
    otherwise.  When it stores, a read before [put_time + ttl] returns
    the stored value (the value itself when it survives the JSON round
    trip); a read at or after that instant returns [None] and leaves the
    database as it is, exactly as a read of a key with no row does,
    although the expired row is still in the table: the expiry is decided
    by the read. *)
Theorem cached_response_ttl (d : db) (query : string)
    (course_id : option string) (v : payload) (ttl put_time now : Z) :
  0 < ttl -> 0 <= put_time -> json_loads (json_dumps v) = v ->
  (put_time + ttl <= datetime_max ->
   put_or_raise d put_time query v course_id (Some ttl)
   = Cached (put d put_time query v course_id (Some ttl)) /\
   (now < put_time + ttl ->
    fst (get (put d put_time query v course_id (Some ttl)) now query
           course_id)
    = Some v) /\
   (put_time + ttl <= now ->
    get (put d put_time query v course_id (Some ttl)) now query course_id
    = (None, put d put_time query v course_id (Some ttl)) /\
    is_Some (query_cache (put d put_time query v course_id (Some ttl))
               !! key query course_id))) /\
  (datetime_max < put_time + ttl ->
   put_or_raise d put_time query v course_id (Some ttl) = OverflowError) /\
  (forall d0, query_cache d0 !! key query course_id = None ->
              get d0 now query course_id = (None, d0)).
Proof.
intros Hpos Htime Hround.
pose proof (put_lookup d put_time query v course_id (Some ttl)) as Hrow.
rewrite (ttl_or_default_pos ttl Hpos) in Hrow.
assert (forall b,
          (b = true <-> put_time + ttl <= datetime_max) ->
          put_or_raise d put_time query v course_id (Some ttl)
          = if b then Cached (put d put_time query v course_id (Some ttl))
            else OverflowError) as Hcall.
{ intros b Hb. unfold put_or_raise, cache_response_or_raise, datetime_add.
  rewrite (ttl_or_default_pos ttl Hpos).
  destruct (Z.leb_spec 0 (put_time + ttl)); [|lia].
  destruct (Z.leb_spec (put_time + ttl) datetime_max); simpl.
  - destruct b; [reflexivity|]. destruct Hb as [_ Hb].
    specialize (Hb ltac:(assumption)). discriminate.
  - destruct b; [|reflexivity]. destruct Hb as [Hb _].
    specialize (Hb eq_refl). lia. }
split; [|split].
- intros Hrange. split; [|split].
  + apply (Hcall true). by split.
  + intros Hlive. unfold get, get_cached_response.
    fold (key query course_id). rewrite Hrow.
    unfold live. simpl. destruct (Z.ltb_spec now (put_time + ttl)); [|lia].
    simpl. by rewrite Hround.
  + intros Hdead. split; [|by rewrite Hrow].
    unfold get, get_cached_response.
    fold (key query course_id). rewrite Hrow.
    unfold live. simpl. destruct (Z.ltb_spec now (put_time + ttl)); [lia|].
    reflexivity.
- intros Hover. apply (Hcall false). split; [discriminate|lia].
- intros d0. apply get_missing.
Qed.
End Service.

(** C3, as stated, fails for a [ttl] that carries the expiry past
    [datetime.max]: on 2026-01-01 a [ttl] of 3000000 days (a valid
    [timedelta]) makes [cache_response] raise [OverflowError]; nothing is
    stored, and a read one microsecond later, long before the [ttl] has
    elapsed, finds nothing. *)
Lemma cached_response_ttl_counterexample :
  0 < 3000000 * 86400 * 1000000 /\
  63902822400000000 + 1 < 63902822400000000 + 3000000 * 86400 * 1000000 /\
  cache_response_or_raise (fun s => s) string (fun s => s) empty_db
    63902822400000000 "what is a chunk" "an answer" (Some "course-1")
    (Some (3000000 * 86400 * 1000000))
  = OverflowError /\
  fst (get_cached_response (fun s => s) string (fun s => s) empty_db
         (63902822400000000 + 1) "what is a chunk" (Some "course-1"))
  = None.
Proof. repeat split; reflexivity. Qed.

Lemma cached_response_ttl_witness :
  cache_response_or_raise (fun s => s) string (fun s => s) empty_db
    63902822400000000 "what is a chunk" "an answer" (Some "course-1")
    (Some 1000)
  = Cached (cache_response (fun s => s) string (fun s => s) empty_db
              63902822400000000 "what is a chunk" "an answer"
              (Some "course-1") (Some 1000)) /\
  (63902822400000500 < 63902822400000000 + 1000 ->
   fst (get_cached_response (fun s => s) string (fun s => s)
          (cache_response (fun s => s) string (fun s => s) empty_db
             63902822400000000 "what is a chunk" "an answer"
             (Some "course-1") (Some 1000))
          63902822400000500 "what is a chunk" (Some "course-1"))
   = Some "an answer") /\
  (63902822400000000 + 1000 <= 63902822400000500 ->
   get_cached_response (fun s => s) string (fun s => s)
     (cache_response (fun s => s) string (fun s => s) empty_db
        63902822400000000 "what is a chunk" "an answer" (Some "course-1")
        (Some 1000))
     63902822400000500 "what is a chunk" (Some "course-1")
   = (None,
      cache_response (fun s => s) string (fun s => s) empty_db
        63902822400000000 "what is a chunk" "an answer" (Some "course-1")
        (Some 1000)) /\
   is_Some (query_cache
              (cache_response (fun s => s) string (fun s => s) empty_db
                 63902822400000000 "what is a chunk" "an answer"
                 (Some "course-1") (Some 1000))
              !! _generate_cache_key (fun s => s) "what is a chunk"
                   (Some "course-1"))).
Proof.
apply (proj1 (cached_response_ttl (fun s => s) string (fun s => s)
                (fun s => s) empty_db "what is a chunk" (Some "course-1")
                "an answer" 1000 63902822400000000 63902822400000500
                ltac:(lia) ltac:(lia) eq_refl)).
vm_compute. discriminate.
Defined.

(** C4: [clear_course_cache] removes from [query_cache] exactly the rows
    tagged with the course and from [concept_graph_cache] exactly the row
    of the course; every other row of the two tables is as before, and
    [embedding_cache] is the same table. *)
Theorem clear_course_cache_exact (d : db) (course : string) :
  (forall k,
     query_cache (clear_course_cache d course) !! k
     = match query_cache d !! k with
       | Some row =>
           if decide (q_course_id row = Some course) then None else Some row
       | None => None
       end) /\
  (forall c,
     concept_graph_cache (clear_course_cache d course) !! c
     = if decide (c = course) then None else concept_graph_cache d !! c) /\
  embedding_cache (clear_course_cache d course) = embedding_cache d.
Proof.
split; [|split].
- intros k. unfold clear_course_cache. simpl.
  destruct (query_cache d !! k) as [row|] eqn:Hk.
  + destruct (decide (q_course_id row = Some course)) as [Hc|Hc].
    * apply map_lookup_filter_None. right. intros row' Hrow'.
      simpl. intros Hne. apply Hne. congruence.
    * apply map_lookup_filter_Some. split; [exact Hk|exact Hc].
  + apply map_lookup_filter_None. by left.
- intros c. unfold clear_course_cache. simpl.
  destruct (decide (c = course)) as [->|Hne].
  + apply lookup_delete_eq.
  + by apply lookup_delete_ne.
- reflexivity.
Qed.

End CacheServiceFacts.

(** ** Score threshold of the retrieval stage *)

Module RetrievalAgentFacts.
Import RetrievalAgent.

Lemma meets_threshold_iff (r : search_result) :
  meets_threshold r = true <-> (min_score <= score_of r)%Q.
Proof. unfold meets_threshold. apply Qle_bool_iff. Qed.

Lemma filter_sublist {A} (f : A -> bool) (l : list A) :
  sublist (List.filter f l) l.
Proof.
induction l as [|x l IH]; simpl; [constructor|].
destruct (f x); by constructor.
Qed.

Lemma filter_all_false {A} (f : A -> bool) (l : list A) :
  Forall (fun x => f x = false) l -> List.filter f l = [].
Proof.
induction 1 as [|x l Hx _ IH]; simpl; [reflexivity|]. by rewrite Hx.
Qed.

Lemma filter_results_some_pass (results : list search_result) :
  List.filter meets_threshold results <> [] ->
  filter_results results = List.filter meets_threshold results.
Proof.
unfold filter_results. destruct (List.filter meets_threshold results); [congruence|].
reflexivity.
Qed.

(** C5: when some result reaches [min_score], the stage returns the
    results that reach it, in their order, and none below it; when every
    result is below [min_score], it returns the first three results of
    the search, which for the scores 0.3, 0.2 and 0.1 is all of them. *)
Theorem filter_results_threshold (results : list search_result) :
  ((exists r, r ∈ results /\ (min_score <= score_of r)%Q) ->
   (forall r, r ∈ filter_results results -> (min_score <= score_of r)%Q) /\
   (forall r, r ∈ results -> (min_score <= score_of r)%Q ->
              r ∈ filter_results results) /\
   sublist (filter_results results) results) /\
  (Forall (fun r => (score_of r < min_score)%Q) results ->
   filter_results results = take 3 results) /\
  filter_results low_results = low_results.
Proof.
split; [|split].
- intros (r0 & Hin0 & Hr0).
  assert (List.filter meets_threshold results <> []) as Hne.
  { intros Hnil. apply list_elem_of_In in Hin0.
    assert (In r0 (List.filter meets_threshold results)) as Hf
      by (apply filter_In; split; [exact Hin0|by apply meets_threshold_iff]).
    rewrite Hnil in Hf. exact Hf. }
  rewrite (filter_results_some_pass results Hne).
  split; [|split].
  + intros r Hr. apply list_elem_of_In, filter_In in Hr as [_ Hr].
    by apply meets_threshold_iff.
  + intros r Hr Hs. apply list_elem_of_In, filter_In.
    split; [by apply list_elem_of_In|by apply meets_threshold_iff].
  + apply filter_sublist.
- intros Hlow. unfold filter_results. rewrite filter_all_false.
  + destruct results; reflexivity.
  + eapply Forall_impl; [exact Hlow|]. intros r Hr. simpl in Hr.
    destruct (meets_threshold r) eqn:Hm; [|reflexivity].
    apply meets_threshold_iff in Hm. exfalso. eapply Qlt_not_le; eassumption.
- reflexivity.
Qed.

Lemma filter_results_threshold_witness :
  filter_results low_results = take 3 low_results /\
  (forall r, r ∈ filter_results mixed_results -> (min_score <= score_of r)%Q).
Proof.
split.
- apply (proj1 (proj2 (filter_results_threshold low_results))).
  repeat (constructor; [reflexivity|]). constructor.
- apply (proj1 (filter_results_threshold mixed_results)).
  exists (SearchResult "b" "second" (Some (9 # 10))).
  split; [right; left|discriminate].
Defined.

End RetrievalAgentFacts.

(** ** Confidence of the composed answer *)

Module PedagogyAgentFacts.
Import Json PedagogyAgent.

#[local] Open Scope Q_scope.

(** The boost for retrieved chunks lies between 0 and 0.2. *)
Lemma chunk_boost_range (n : nat) :
  0 <= (2 # 10) * Qmin (inject_Z (Z.of_nat n) / 5) 1 <= 2 # 10.
Proof.
assert (0 <= Qmin (inject_Z (Z.of_nat n) / 5) 1 <= 1) as [Hlo Hhi].
{ split; [|apply Q.le_min_r].
  apply Q.min_glb; [|lra].
  assert (0 <= inject_Z (Z.of_nat n)) as H0.
  { change 0 with (inject_Z 0). rewrite <- Zle_Qle. lia. }
  unfold Qdiv. apply Qmult_le_0_compat; [exact H0|].
  apply Qinv_le_0_compat. lra. }
split; lra.
Qed.

(** C9: the confidence of the composed answer lies in [[0.5, 1.0]] for
    every answer dictionary and every chunk list. *)
Theorem calculate_confidence_range {A : Type} (answer : gmap string json)
    (chunks : option (list A)) :
  5 # 10 <= _calculate_confidence answer chunks <= 1.
Proof.
unfold _calculate_confidence.
set (base := match chunks with
             | Some ((_ :: _) as l) =>
                 (5 # 10) + (2 # 10) * Qmin (inject_Z (Z.of_nat (length l)) / 5) 1
             | _ => 5 # 10
             end).
assert (5 # 10 <= base) as Hbase.
{ subst base. destruct chunks as [[|x l]|]; try lra.
  pose proof (chunk_boost_range (length (x :: l))). lra. }
clearbody base. cbv zeta.
split; [|apply Q.le_min_r].
apply Q.min_glb; [|lra].
destruct (truthy (get answer "definition")), (truthy (get answer "explanation")),
  (truthy (get answer "example")), (truthy (get answer "pitfalls")); lra.
Qed.

End PedagogyAgentFacts.

(** ** Excerpts *)

Module VerificationAgentFacts.
Import PyStr PyStrFacts VerificationAgent.

Lemma last_at_unique (c : ascii) (p q : nat) (s : str) :
  last_at c p s -> last_at c q s -> p = q.
Proof.
intros [Hp Hp'] [Hq Hq'].
destruct (Nat.lt_trichotomy p q) as [Hlt|[Heq|Hgt]]; [|exact Heq|].
- exfalso. exact (Hp' q Hlt Hq).
- exfalso. exact (Hq' p Hgt Hp).
Qed.

Lemma rfind_go_spec (c : ascii) (s : str) :
  forall (i best : Z),
    (rfind_go c s i best = best /\ c ∉ s) \/
    (exists p, rfind_go c s i best = i + Z.of_nat p /\ last_at c p s).
Proof.
induction s as [|x s IH]; intros i best; simpl.
- left. split; [reflexivity|]. apply not_elem_of_nil.
- destruct (IH (i + 1) (if Ascii.eqb x c then i else best))
    as [[Hr Hnot]|(p & Hr & Hp & Hlast)].
  + rewrite Hr. destruct (Ascii.eqb_spec x c) as [->|Hne].
    * right. exists 0%nat. split; [lia|]. split; [reflexivity|].
      intros [|q] Hq; [lia|]. simpl. intros Hs. apply Hnot.
      eapply list_elem_of_lookup_2. exact Hs.
    * left. split; [reflexivity|]. intros Hin.
      apply elem_of_cons in Hin as [Heq|Hin]; [congruence|contradiction].
  + right. exists (S p). split; [rewrite Hr; lia|]. split; [exact Hp|].
    intros [|q] Hq; [lia|]. simpl. apply Hlast. lia.
Qed.

Lemma rfind_last (c : ascii) (p : nat) (s : str) :
  last_at c p s -> rfind c s = Z.of_nat p.
Proof.
intros Hp. unfold rfind.
destruct (rfind_go_spec c s 0 (-1)) as [[_ Hnot]|(q & Hr & Hq)].
- exfalso. apply Hnot. destruct Hp as [Hp _].
  eapply list_elem_of_lookup_2. exact Hp.
- rewrite Hr, (last_at_unique c p q s Hp Hq). lia.
Qed.

Lemma rfind_absent (c : ascii) (s : str) : c ∉ s -> rfind c s = -1.
Proof.
intros Hnot. unfold rfind.
destruct (rfind_go_spec c s 0 (-1)) as [[Hr _]|(q & _ & Hq & _)]; [exact Hr|].
exfalso. apply Hnot. eapply list_elem_of_lookup_2. exact Hq.
Qed.

(** The scan decides [last_at]. *)
Lemma rfind_go_last_at (c : ascii) (s : str) (p : nat) :
  rfind c s = Z.of_nat p -> last_at c p s.
Proof.
unfold rfind. intros Hr.
destruct (rfind_go_spec c s 0 (-1)) as [[Hb _]|(q & Hq & Hlast)].
- rewrite Hb in Hr. lia.
- rewrite Hq in Hr. assert (q = p) as <- by lia. exact Hlast.
Qed.

Lemma rfind_cases (c : ascii) (s : str) :
  (rfind c s = -1 /\ c ∉ s) \/
  (exists p, rfind c s = Z.of_nat p /\ last_at c p s).
Proof.
unfold rfind. destruct (rfind_go_spec c s 0 (-1)) as [H|(p & Hr & Hp)].
- by left.
- right. exists p. split; [rewrite Hr; lia|exact Hp].
Qed.

Lemma last_at_take_bound (c : ascii) (p n : nat) (s : str) :
  last_at c p (take n s) -> (p < n)%nat.
Proof.
intros [Hp _]. apply lookup_lt_Some in Hp. rewrite length_take in Hp. lia.
Qed.

Lemma take_of_take (n m : nat) (s : str) :
  (n <= m)%nat -> take n (take m s) = take n s.
Proof. intros Hle. rewrite take_take. f_equal. lia. Qed.

(** C7, as stated, fails: the text has a period within its first 150
    characters (its only one, at index 5), and the excerpt is not cut
    there but at the last space, with the ellipsis appended. *)
Lemma create_excerpt_counterexample :
  (150 < length early_period_text)%nat /\
  early_period_text !! 5%nat = Some "."%char /\
  rfind "."%char (take 150 early_period_text) = 5 /\
  create_excerpt early_period_text <> take 6 early_period_text /\
  create_excerpt early_period_text
  = take 146 early_period_text ++ lit "...".
Proof.
split; [vm_compute; lia|]. split; [reflexivity|].
split; [vm_compute; reflexivity|].
split; [vm_compute; discriminate|vm_compute; reflexivity].
Qed.

(** C7, amended: for a text longer than 150 characters the excerpt is cut
    just after the last period of the first 150 characters when that
    period stands at an index above 75; otherwise it is cut before the
    last space of the first 150 characters (not cut when there is none)
    and the ellipsis is appended.  In particular a text of 200 characters
    whose last period within the first 150 is at index 80 gives exactly
    its first 81 characters. *)
Theorem create_excerpt_cut (text : str) :
  (150 < length text)%nat ->
  (forall p, last_at "."%char p (take 150 text) -> (75 < p)%nat ->
             create_excerpt text = take (p + 1) text) /\
  ((forall p, last_at "."%char p (take 150 text) -> (p <= 75)%nat) ->
   (forall s, last_at " "%char s (take 150 text) ->
              create_excerpt text = take s text ++ lit "...") /\
   (" "%char ∉ take 150 text ->
    create_excerpt text = take 150 text ++ lit "...")) /\
  (length text = 200%nat -> last_at "."%char 80 (take 150 text) ->
   create_excerpt text = take 81 text).
Proof.
intros Hlong.
assert (forall p, last_at "."%char p (take 150 text) -> (75 < p)%nat ->
                  create_excerpt text = take (p + 1) text) as Hperiod.
{ intros p Hp Hmid. unfold create_excerpt, _create_excerpt.
  destruct (Z.leb_spec (len text) 150) as [Hle|_]; [unfold len in Hle; lia|].
  change (slice_to 150 text) with (take 150 text). change (150 / 2) with 75.
  rewrite (rfind_last _ p _ Hp).
  destruct (Z.ltb_spec 75 (Z.of_nat p)); [|lia].
  pose proof (last_at_take_bound _ _ _ _ Hp).
  rewrite slice_to_nonneg by lia.
  replace (Z.to_nat (Z.of_nat p + 1)) with (p + 1)%nat by lia.
  apply take_of_take. lia. }
split; [exact Hperiod|]. split.
- intros Hearly.
  assert (create_excerpt text
          = rsplit1_head " "%char (take 150 text) ++ lit "...") as Hword.
  { unfold create_excerpt, _create_excerpt.
    destruct (Z.leb_spec (len text) 150) as [Hle|_]; [unfold len in Hle; lia|].
    change (slice_to 150 text) with (take 150 text). change (150 / 2) with 75.
    destruct (rfind_cases "."%char (take 150 text)) as [[-> _]|(p & -> & Hp)].
    - reflexivity.
    - specialize (Hearly p Hp).
      destruct (Z.ltb_spec 75 (Z.of_nat p)); [lia|reflexivity]. }
  split.
  + intros s Hs. rewrite Hword. f_equal. unfold rsplit1_head.
    rewrite (rfind_last _ s _ Hs).
    destruct (Z.ltb_spec (Z.of_nat s) 0); [lia|].
    rewrite Nat2Z.id. apply take_of_take.
    pose proof (last_at_take_bound _ _ _ _ Hs). lia.
  + intros Hnone. rewrite Hword. f_equal. unfold rsplit1_head.
    by rewrite (rfind_absent _ _ Hnone).
- intros _ Hp. apply (Hperiod 80%nat Hp). lia.
Qed.

Lemma create_excerpt_cut_witness :
  create_excerpt period_80_text = take 81 period_80_text.
Proof.
refine (proj2 (proj2 (create_excerpt_cut period_80_text _)) _ _).
- vm_compute. lia.
- reflexivity.
- apply (rfind_go_last_at "."%char (take 150 period_80_text) 80).
  vm_compute. reflexivity.
Defined.

End VerificationAgentFacts.

(** ** The final response *)

Module OrchestratorFacts.
Import Json Orchestrator.

#[local] Open Scope Q_scope.

(** C6: with no retrieved chunk (the list is empty or was never set) the
    response has [has_course_material = False], no sources, and its
    confidence is the smaller of 0.8 times the confidence of the composed
    answer and 0.85, hence at most 0.85, which is below the maximum 1.0
    of an answer backed by course material. *)
Theorem format_response_no_material (context : AgentContext) :
  retrieved_chunks context = Some [] \/ retrieved_chunks context = None ->
  has_course_material (_format_response context) = false /\
  r_confidence (_format_response context)
  = Qmin (confidence context * (8 # 10)) (85 # 100) /\
  r_confidence (_format_response context) <= 85 # 100 /\
  85 # 100 < 1 /\
  r_sources (_format_response context) = [].
Proof.
intros Hnone.
assert (nonempty (retrieved_chunks context) = false) as Hempty
  by (destruct Hnone as [-> | ->]; reflexivity).
unfold _format_response. simpl. rewrite Hempty. simpl.
split; [reflexivity|]. split; [reflexivity|].
split; [apply Q.le_min_r|]. split; reflexivity.
Qed.

Lemma format_response_no_material_witness :
  has_course_material (_format_response unanswered_context) = false /\
  r_confidence (_format_response unanswered_context)
  = Qmin (confidence unanswered_context * (8 # 10)) (85 # 100) /\
  r_confidence (_format_response unanswered_context) <= 85 # 100 /\
  85 # 100 < 1 /\
  r_sources (_format_response unanswered_context) = [].
Proof.
apply (format_response_no_material unanswered_context).
left. reflexivity.
Defined.

End OrchestratorFacts.

(** * Further properties of the code *)

(** ** The chunker on whole pages and documents *)

Module ChunkerFacts.
Import PyStr PyStrFacts DocumentProcessor DocumentProcessorFacts.
Import PyVal DocumentChunker.

(** While the buffer and the pieces fit, the loop only concatenates. *)
Lemma loop_fits (cfg : config) (rec : str -> list str -> res (list str))
    (separator : str) (new_separators : list str) :
  truthy separator = true ->
  forall (splits : list str) (chunks : list str) (cur : str),
    len cur + len (concat (map (fun p => p ++ separator) splits))
    <= chunk_size cfg ->
    loop cfg rec separator new_separators (chunks, cur) splits
    = Ret (chunks, cur ++ concat (map (fun p => p ++ separator) splits)).
Proof.
intros Hsep. induction splits as [|split splits IH]; intros chunks cur Hfit.
- simpl. by rewrite app_nil_r.
- cbn [loop map concat] in *. unfold loop_body. rewrite Hsep.
  rewrite !len_app in Hfit.
  pose proof (len_nonneg (concat (map (fun p => p ++ separator) splits))).
  destruct (Z.ltb_spec (chunk_size cfg) (len cur + len (split ++ separator)))
    as [Hover|_]; [rewrite len_app in Hover; lia|].
  simpl. rewrite IH; [by rewrite <- app_assoc|].
  rewrite !len_app. lia.
Qed.

Lemma recursive_split_fits (cfg : config) (fuel : nat) (separator : str)
    (rest : list str) (text : str) :
  truthy separator = true ->
  len text + len separator <= chunk_size cfg ->
  _recursive_split cfg (S fuel) text (separator :: rest)
  = Ret (flush cfg [] (text ++ separator)).
Proof.
intros Hsep Hfit. cbn [_recursive_split].
rewrite new_separators_cons. unfold splits_of. rewrite Hsep.
assert (separator <> []) as Hne by (destruct separator; [discriminate|congruence]).
rewrite loop_fits.
- cbn [app mbind res_bind fst snd]. by rewrite split_pieces.
- exact Hsep.
- rewrite split_pieces by exact Hne. rewrite len_app.
  change (len []) with 0. lia.
Qed.

(** X1: a text that fits in one chunk together with the paragraph
    separator appended to it comes back as one chunk, its stripped form,
    provided the text and the separator reach [min_chunk_size]; otherwise
    nothing is returned. *)
Theorem split_text_fits_one_chunk (cfg : config) (text : str) :
  len text + 2 <= chunk_size cfg ->
  split_text cfg text
  = Ret (if min_chunk_size cfg <=? len text + 2 then [strip text] else []).
Proof.
intros Hfit. unfold split_text, DEFAULT_SEPARATORS.
change (length _) with 5%nat.
rewrite recursive_split_fits; [|reflexivity|exact Hfit].
unfold flush. rewrite len_app. change (len [newline; newline]) with 2.
destruct (min_chunk_size cfg <=? len text + 2); [|reflexivity].
cbn [app]. rewrite strip_app_space; [reflexivity|].
repeat constructor.
Qed.

Lemma split_text_fits_one_chunk_witness :
  split_text default_config (lit "  A short page. ")
  = Ret (if min_chunk_size default_config
            <=? len (lit "  A short page. ") + 2
         then [strip (lit "  A short page. ")] else []).
Proof.
apply (split_text_fits_one_chunk default_config (lit "  A short page. ")).
vm_compute. discriminate.
Defined.

(** *** Every chunk is stripped *)

Section LoopForall.
Variable P : str -> Prop.
Hypothesis P_strip : forall buf, P (strip buf).
Variable cfg : config.
Variable rec : str -> list str -> res (list str).
Variable separator : str.
Variable new_separators : list str.
Hypothesis rec_ok :
  forall piece r, rec piece new_separators = Ret r -> Forall P r.

Lemma flush_Forall (chunks : list str) (cur : str) :
  Forall P chunks -> Forall P (flush cfg chunks cur).
Proof.
intros Hc. unfold flush. destruct (_ <=? _); [|exact Hc].
apply Forall_app. split; [exact Hc|]. constructor; [apply P_strip|constructor].
Qed.

Lemma loop_Forall (splits : list str) (st st' : list str * str) :
  Forall P (fst st) ->
  loop cfg rec separator new_separators st splits = Ret st' ->
  Forall P (fst st').
Proof.
revert st. induction splits as [|split splits IH]; intros st Hc; simpl.
- by intros [= <-].
- intros H. apply bind_Ret_inv in H as (st1 & H1 & H2).
  apply (IH st1); [|exact H2]. clear H2 IH.
  destruct st as [chunks cur]. unfold loop_body in H1. cbv zeta in H1.
  simpl in Hc.
  destruct (_ <? _ + _); [|by injection H1 as <-].
  destruct (_ && _).
  + apply bind_Ret_inv in H1 as (r & Hr & Hk). injection Hk as <-. simpl.
    apply Forall_app. split; [by apply flush_Forall|by eapply rec_ok].
  + injection H1 as <-. simpl. by apply flush_Forall.
Qed.
End LoopForall.

Lemma recursive_split_Forall (P : str -> Prop) (cfg : config) :
  (forall buf, P (strip buf)) ->
  forall (fuel : nat) (text : str) (separators chunks : list str),
    _recursive_split cfg fuel text separators = Ret chunks ->
    Forall P chunks.
Proof.
intros HP. induction fuel as [|fuel IH]; intros text separators chunks H.
- discriminate.
- destruct separators as [|separator rest]; [discriminate|].
  cbn [_recursive_split] in H.
  apply bind_Ret_inv in H as (st & Hst & Hk). injection Hk as <-.
  apply flush_Forall; [exact HP|].
  refine (loop_Forall P HP cfg _ _ _ _ _ _ st _ Hst); [|constructor].
  intros piece r Hr. eapply IH. exact Hr.
Qed.

(** X2: whatever the parameters, the split of a text returns, and every
    returned chunk is stripped: [strip] does not change it, and when it is
    not empty its first and its last character are not whitespace. *)
Theorem split_text_chunks_stripped (cfg : config) (text : str) :
  exists chunks,
    split_text cfg text = Ret chunks /\
    Forall (fun c => strip c = c /\ clean_start c /\ clean_start (rev c))
           chunks.
Proof.
destruct (recursive_split_total cfg (length DEFAULT_SEPARATORS)
            DEFAULT_SEPARATORS text) as [chunks Hrun];
  [discriminate|reflexivity|].
exists chunks. split; [exact Hrun|].
eapply (recursive_split_Forall _ cfg); [|exact Hrun].
intros buf. destruct (strip_clean buf) as [H1 H2].
split; [apply strip_idemp|]. by split.
Qed.

(** *** The chunks of a document *)

Section ChunkDocument.
Variable cfg : config.
Variable document_id : string.
Variable base_metadata : gmap string value.
Variable numbers : list Z.

(** The state of the two loops: the counter is the number of chunks built
    so far, and every chunk built so far is numbered by its position. *)
Let inv (st : list DocumentChunk * nat) : Prop :=
  snd st = length (fst st) /\
  (forall i c, fst st !! i = Some c -> well_numbered document_id i c) /\
  Forall (fun c => min_chunk_size cfg <= len (chunk_content c) /\
                   chunk_page c ∈ numbers) (fst st).

Lemma make_chunk_well_numbered (page_num : Z) (i : nat) (content : str) :
  well_numbered document_id i
    (make_chunk document_id base_metadata page_num i content).
Proof.
unfold well_numbered, make_chunk. simpl.
split; [reflexivity|]. split; [reflexivity|]. split; [reflexivity|].
split; [apply lookup_insert_eq|].
rewrite lookup_insert_ne by discriminate. apply lookup_insert_eq.
Qed.

Lemma add_page_chunks_inv (page_num : Z) (page_chunks : list str) :
  page_num ∈ numbers ->
  forall st, inv st ->
    inv (add_page_chunks cfg document_id base_metadata page_num page_chunks st).
Proof.
intros Hnum. induction page_chunks as [|content rest IH]; intros st Hinv;
  simpl; [exact Hinv|].
destruct (Z.ltb_spec (len content) (min_chunk_size cfg)) as [Hshort|Hlong];
  [by apply IH|].
apply IH. destruct st as [chunks idx]. destruct Hinv as (Hidx & Hnum' & Hall).
simpl in *. subst idx. split; [|split]; cbn [fst snd].
- rewrite length_app. simpl. lia.
- intros i c Hi. apply lookup_app_Some in Hi as [Hi|[Hge Hi]].
  + by apply Hnum'.
  + apply list_lookup_singleton_Some in Hi as [Hi <-].
    replace i with (length chunks) by lia.
    apply make_chunk_well_numbered.
- apply Forall_app. split; [exact Hall|].
  constructor; [|constructor]. simpl. split; [lia|exact Hnum].
Qed.

Lemma add_page_chunks_contents (page_num : Z) (page_chunks : list str) :
  forall st,
    chunk_content
      <$> fst (add_page_chunks cfg document_id base_metadata page_num
                 page_chunks st)
    = (chunk_content <$> fst st) ++ kept_contents cfg page_chunks.
Proof.
induction page_chunks as [|content rest IH]; intros st; simpl.
- by rewrite app_nil_r.
- unfold kept_contents. rewrite filter_cons.
  destruct (Z.ltb_spec (len content) (min_chunk_size cfg)) as [Hshort|Hlong].
  + destruct (decide (~ len content < min_chunk_size cfg)); [lia|].
    apply IH.
  + destruct (decide (~ len content < min_chunk_size cfg)); [|lia].
    rewrite IH. simpl. rewrite fmap_app. simpl.
    by rewrite <- app_assoc.
Qed.

Lemma chunk_pages_inv (pages : list page) :
  Forall (fun p => page_number p ∈ numbers) pages ->
  forall st, inv st ->
    exists st' splits,
      chunk_pages cfg document_id base_metadata pages st = Ret st' /\
      inv st' /\
      Forall2 (fun p r => split_text cfg (content p) = Ret r) pages splits /\
      chunk_content <$> fst st'
      = (chunk_content <$> fst st) ++ concat (kept_contents cfg <$> splits).
Proof.
induction 1 as [|p pages Hp _ IH]; intros st Hinv.
- exists st, []. simpl. split; [reflexivity|]. split; [exact Hinv|].
  split; [constructor|]. by rewrite app_nil_r.
- destruct (recursive_split_total cfg (length DEFAULT_SEPARATORS)
              DEFAULT_SEPARATORS (content p)) as [r Hr];
    [discriminate|reflexivity|].
  fold (split_text cfg (content p)) in Hr.
  destruct (IH (add_page_chunks cfg document_id base_metadata
                  (page_number p) r st)) as (st' & splits & Hrun & Hi & Hs & Hc).
  { by apply add_page_chunks_inv. }
  exists st', (r :: splits). cbn [chunk_pages]. rewrite Hr.
  split; [exact Hrun|]. split; [exact Hi|]. split; [by constructor|].
  rewrite Hc, add_page_chunks_contents. simpl. by rewrite <- app_assoc.
Qed.
End ChunkDocument.

Lemma chunk_id_of_index_inj (document_id : string) (i j : nat) :
  (document_id +:+ "_chunk_" +:+ pretty i)%string
  = (document_id +:+ "_chunk_" +:+ pretty j)%string -> i = j.
Proof.
intros H. apply String.app_inj in H. apply String.app_inj in H.
by apply pretty_nat_inj in H.
Qed.

(** X3: [_chunk_document] returns for every list of pages.  The chunk at
    position [i] of its result has [chunk_index = i], the identifier
    [<document_id>_chunk_<i>] and the metadata entries ["chunk_index"] and
    ["page"] of its own index and page, so the numbering has no gap even
    when short strings are skipped; the identifiers are pairwise
    distinct; every content is at least [min_chunk_size] long and comes
    from a page of the input; and the contents are, page after page, the
    strings of the page's split that reach [min_chunk_size]. *)
Theorem chunk_document_numbering (cfg : config) (pages : list page)
    (document_id : string) (base_metadata : gmap string value) :
  exists chunks splits,
    _chunk_document cfg pages document_id base_metadata = Ret chunks /\
    (forall i c, chunks !! i = Some c -> well_numbered document_id i c) /\
    NoDup (chunk_id <$> chunks) /\
    Forall (fun c => min_chunk_size cfg <= len (chunk_content c) /\
                     chunk_page c ∈ (page_number <$> pages)) chunks /\
    Forall2 (fun p r => split_text cfg (content p) = Ret r) pages splits /\
    chunk_content <$> chunks = concat (kept_contents cfg <$> splits).
Proof.
destruct (chunk_pages_inv cfg document_id base_metadata
            (page_number <$> pages) pages) with (st := ([] : list DocumentChunk, 0%nat))
  as (st' & splits & Hrun & (Hidx & Hnum & Hall) & Hs & Hc).
{ apply Forall_forall. intros p Hp. by apply list_elem_of_fmap_2. }
{ split; [reflexivity|]. split; [|constructor].
  intros i c Hi. simpl in Hi. by rewrite lookup_nil in Hi. }
exists (fst st'), splits. unfold _chunk_document. rewrite Hrun.
split; [reflexivity|]. split; [exact Hnum|]. split; [|by repeat split].
apply NoDup_alt. intros i j x Hi Hj.
apply list_lookup_fmap_Some in Hi as (ci & -> & Hci).
apply list_lookup_fmap_Some in Hj as (cj & Heq & Hcj).
destruct (Hnum i ci Hci) as (_ & Hidi & _).
destruct (Hnum j cj Hcj) as (_ & Hidj & _).
rewrite Hidi, Hidj in Heq. by apply chunk_id_of_index_inj in Heq.
Qed.


End ChunkerFacts.

(** ** Retrieval: expansion, deduplication, reranking, selection *)

Module SrcRetrievalFacts.
Import PyStr PyStrFacts PyVal SrcRetrievalAgent SrcRetrievalAgentFacts.

(** *** Query expansion *)

Lemma expansion_lines_clean (response : str) :
  Forall (fun q => q <> [] /\ strip q = q) (expansion_lines response).
Proof.
unfold expansion_lines. apply Forall_forall. intros q Hq.
apply list_elem_of_omap in Hq as (x & _ & Hx).
destruct (strip x) as [|c r] eqn:Hs; simpl in Hx; [discriminate|].
injection Hx as <-. split; [discriminate|].
rewrite <- Hs. apply strip_idemp.
Qed.

(** The lines kept of a text are those kept of the stripped text: the
    outer [strip] of [_expand_query] removes only blank lines and
    whitespace that the inner [strip] removes too. *)
Section KeptLines.
Let keep (q : str) : option str :=
  if truthy (strip q) then Some (strip q) else None.
Let kept (s : str) : list str := omap keep (split [newline] s).

Lemma kept_cons_space (c : ascii) (s : str) :
  isspace c = true -> kept (c :: s) = kept s.
Proof.
intros Hc. unfold kept. rewrite split_newline_cons.
destruct (Ascii.eqb newline c); [reflexivity|].
pose proof (split_newline_nonempty s) as Hne.
destruct (split [newline] s) as [|p ps]; [congruence|].
simpl. assert (keep (c :: p) = keep p) as ->; [|reflexivity].
unfold keep, strip. simpl. by rewrite Hc.
Qed.

Lemma kept_lstrip (s : str) : kept (lstrip s) = kept s.
Proof.
induction s as [|c s IH]; [reflexivity|]. simpl.
destruct (isspace c) eqn:Hc; [|reflexivity].
by rewrite IH, kept_cons_space.
Qed.

Lemma kept_snoc_space (s : str) (c : ascii) :
  isspace c = true -> kept (s ++ [c]) = kept s.
Proof.
intros Hc. unfold kept.
destruct (split_newline_snoc s c) as (init & lst & -> & ->).
destruct (Ascii.eqb newline c).
- change (init ++ [lst; []]) with (init ++ [lst] ++ [[]]).
  rewrite app_assoc, (omap_app _ (init ++ [lst])). simpl.
  by rewrite app_nil_r.
- rewrite !omap_app. f_equal. simpl. unfold keep.
  rewrite (strip_app_space lst [c]); [reflexivity|].
  by constructor.
Qed.

Lemma kept_app_space (w : str) :
  all_space w -> forall s, kept (s ++ w) = kept s.
Proof.
induction 1 as [|c w Hc _ IH]; intros s; [by rewrite app_nil_r|].
change (s ++ c :: w) with (s ++ [c] ++ w).
by rewrite app_assoc, IH, kept_snoc_space.
Qed.

Lemma kept_strip (s : str) : kept (strip s) = kept s.
Proof.
unfold strip. destruct (rstrip_decomp (lstrip s)) as (w & Hw & Hs).
rewrite <- (kept_lstrip s), <- (kept_app_space w Hw (rstrip (lstrip s))).
by rewrite <- Hs.
Qed.

Lemma kept_filter (lines : list str) :
  omap keep lines = filter (fun q => q <> []) (strip <$> lines).
Proof.
induction lines as [|l lines IH]; [reflexivity|].
rewrite fmap_cons, filter_cons.
change (omap keep (l :: lines))
  with (match keep l with
        | Some y => y :: omap keep lines
        | None => omap keep lines
        end).
unfold keep. destruct (strip l) as [|c r]; simpl.
- destruct (decide (@nil ascii <> [])) as [Hne|_]; [done|exact IH].
- destruct (decide (c :: r <> [])) as [_|Hnil];
    [|exfalso; apply Hnil; discriminate].
  f_equal. exact IH.
Qed.

(** The expansion lines of a reply given line by line. *)
Lemma expansion_lines_join (lines : list str) :
  Forall (fun l => newline ∉ l) lines ->
  expansion_lines (join [newline] lines)
  = filter (fun q => q <> []) (strip <$> lines).
Proof.
intros Hall. unfold expansion_lines. fold keep.
change (omap keep (split [newline] (strip (join [newline] lines))))
  with (kept (strip (join [newline] lines))).
rewrite kept_strip. unfold kept.
destruct lines as [|p lines]; [reflexivity|].
rewrite split_newline_join by exact Hall. apply kept_filter.
Qed.
End KeptLines.

(** X4: for a reply given line by line, query expansion returns the
    original question followed by the first two non-blank lines of the
    reply, stripped.  Whatever the reply, the question comes first and is
    followed by at most two expansions, each of them non-empty and
    stripped; when the completion call fails the question alone is
    returned. *)
Theorem expand_query_shape (lines : list str) (question : str) :
  Forall (fun l => newline ∉ l) lines ->
  _expand_query (Some (join [newline] lines)) question
  = question :: take 2 (filter (fun q => q <> []) (strip <$> lines)) /\
  (forall reply, exists expansions,
     _expand_query reply question = question :: expansions /\
     (length expansions <= 2)%nat /\
     Forall (fun q => q <> [] /\ strip q = q) expansions) /\
  _expand_query None question = [question].
Proof.
intros Hall. split; [|split; [|reflexivity]].
- simpl. by rewrite expansion_lines_join.
- intros [response|]; simpl.
  + exists (take 2 (expansion_lines response)). split; [reflexivity|].
    split; [rewrite length_take; lia|].
    apply Forall_take, expansion_lines_clean.
  + exists []. split; [reflexivity|]. split; [simpl; lia|constructor].
Qed.

Lemma expand_query_shape_witness :
  _expand_query
    (Some (join [newline]
             [lit " define chunk "; lit ""; lit "  "; lit "chunk size ";
              lit "third line"]))
    (lit "what is a chunk")
  = [lit "what is a chunk"; lit "define chunk"; lit "chunk size"].
Proof.
refine (proj1 (expand_query_shape
                 [lit " define chunk "; lit ""; lit "  "; lit "chunk size ";
                  lit "third line"]
                 (lit "what is a chunk") _)).
apply (bool_decide_unpack _). vm_compute. exact I.
Defined.

Example expand_query_three_lines :
  _expand_query
    (Some (lit " define chunk " ++ [newline; newline] ++ lit "chunk size"
           ++ [newline] ++ lit "third line"))
    (lit "what is a chunk")
  = [lit "what is a chunk"; lit "define chunk"; lit "chunk size"].
Proof. reflexivity. Qed.

(** *** Deduplication *)

Lemma dedup_loop_sublist (chunks : list chunk) :
  forall seen, sublist (dedup_loop seen [] chunks) chunks.
Proof.
induction chunks as [|c rest IH]; intros seen; simpl; [constructor|].
destruct (decide (chunk_key c ∈ seen)).
- apply sublist_cons, IH.
- rewrite dedup_loop_app. simpl. apply sublist_skip, IH.
Qed.

Lemma dedup_loop_fresh (chunks : list chunk) :
  forall seen unique,
    NoDup (chunk_key <$> chunks) ->
    (forall c, c ∈ chunks -> chunk_key c ∉ seen) ->
    dedup_loop seen unique chunks = unique ++ chunks.
Proof.
induction chunks as [|c rest IH]; intros seen unique Hnd Hfresh; simpl.
- by rewrite app_nil_r.
- rewrite fmap_cons in Hnd. apply NoDup_cons in Hnd as [Hc Hrest].
  destruct (decide (chunk_key c ∈ seen)) as [Hin|_].
  + exfalso. apply (Hfresh c); [left|exact Hin].
  + rewrite IH; [by rewrite <- app_assoc|exact Hrest|].
    intros x Hx [Heq%elem_of_singleton|Hin]%elem_of_union.
    * apply Hc. rewrite <- Heq. by apply list_elem_of_fmap_2.
    * apply (Hfresh x); [by right|exact Hin].
Qed.

Lemma dedup_loop_keys (chunks : list chunk) :
  forall seen unique k,
    k ∈ (chunk_key <$> chunks) ->
    k ∈ seen \/ k ∈ (chunk_key <$> dedup_loop seen unique chunks).
Proof.
induction chunks as [|c rest IH]; intros seen unique k Hk; simpl.
- by apply elem_of_nil in Hk.
- rewrite fmap_cons in Hk. apply elem_of_cons in Hk as [->|Hk].
  + destruct (decide (chunk_key c ∈ seen)) as [Hin|Hnot]; [by left|].
    right. rewrite dedup_loop_app, !fmap_app. simpl.
    apply elem_of_app. left. apply elem_of_app. right. left.
  + destruct (decide (chunk_key c ∈ seen)) as [Hin|Hnot].
    * by apply IH.
    * destruct (IH ({[chunk_key c]} ∪ seen) (unique ++ [c]) k Hk)
        as [[Heq%elem_of_singleton|Hin]%elem_of_union|Hout].
      -- right. rewrite dedup_loop_app, !fmap_app. simpl. rewrite Heq.
         apply elem_of_app. left. apply elem_of_app. right. left.
      -- by left.
      -- by right.
Qed.

(** X5: deduplication keeps an order-preserving sublist of its input in
    which no two chunks have the same key and every key of the input is
    still present; it is idempotent and never lengthens the list. *)
Theorem deduplicate_chunks_unique (chunks : list chunk) :
  sublist (_deduplicate_chunks chunks) chunks /\
  NoDup (chunk_key <$> _deduplicate_chunks chunks) /\
  (forall k, k ∈ (chunk_key <$> chunks) <->
             k ∈ (chunk_key <$> _deduplicate_chunks chunks)) /\
  _deduplicate_chunks (_deduplicate_chunks chunks)
  = _deduplicate_chunks chunks /\
  (length (_deduplicate_chunks chunks) <= length chunks)%nat.
Proof.
assert (sublist (_deduplicate_chunks chunks) chunks) as Hsub
  by apply dedup_loop_sublist.
assert (NoDup (chunk_key <$> _deduplicate_chunks chunks)) as Hnd.
{ apply dedup_loop_NoDup; [constructor|].
  intros c Hc. by apply elem_of_nil in Hc. }
split; [exact Hsub|]. split; [exact Hnd|]. split; [|split].
- intros k. split.
  + intros Hk. destruct (dedup_loop_keys chunks ∅ [] k Hk) as [Hin|Hout].
    * by apply not_elem_of_empty in Hin.
    * exact Hout.
  + intros Hk. apply list_elem_of_fmap in Hk as (c & -> & Hc).
    apply list_elem_of_fmap_2. eapply elem_of_sublist; eassumption.
- unfold _deduplicate_chunks at 1. rewrite dedup_loop_fresh.
  + reflexivity.
  + exact Hnd.
  + intros c _. apply not_elem_of_empty.
- by apply sublist_length.
Qed.

(** X6: of the chunks that share a key the first one is kept and every
    later one is dropped: the first chunk of a key is in the output, and
    removing a later chunk of that key from the input does not change the
    output. *)
Theorem deduplicate_chunks_first_wins (l1 l2 l3 : list chunk) (c1 c2 : chunk) :
  chunk_key c1 = chunk_key c2 ->
  Forall (fun c => chunk_key c <> chunk_key c1) l1 ->
  c1 ∈ _deduplicate_chunks (l1 ++ c1 :: l2 ++ c2 :: l3) /\
  _deduplicate_chunks (l1 ++ c1 :: l2 ++ c2 :: l3)
  = _deduplicate_chunks (l1 ++ c1 :: l2 ++ l3).
Proof.
intros Hkey Hfirst. split.
- apply dedup_loop_keeps_new; [exact Hfirst|apply not_elem_of_empty].
- by apply dedup_loop_same_key.
Qed.

Lemma deduplicate_chunks_first_wins_witness :
  stored_chunk "d_chunk_0" "alpha"
  ∈ _deduplicate_chunks
      ([stored_chunk "d_chunk_1" "beta"]
       ++ stored_chunk "d_chunk_0" "alpha"
       :: [] ++ stored_chunk "d_chunk_0" "another text" :: []) /\
  _deduplicate_chunks
    ([stored_chunk "d_chunk_1" "beta"]
     ++ stored_chunk "d_chunk_0" "alpha"
     :: [] ++ stored_chunk "d_chunk_0" "another text" :: [])
  = _deduplicate_chunks
      ([stored_chunk "d_chunk_1" "beta"]
       ++ stored_chunk "d_chunk_0" "alpha" :: [] ++ []).
Proof.
apply (deduplicate_chunks_first_wins [stored_chunk "d_chunk_1" "beta"] [] []
         (stored_chunk "d_chunk_0" "alpha")
         (stored_chunk "d_chunk_0" "another text")).
- reflexivity.
- constructor; [discriminate|constructor].
Defined.

(** *** Reranking *)

(** X7: whatever the completion reply, a list returned by the rerank holds
    exactly the chunks of its input: none is lost and none is invented;
    for pairwise distinct candidates it is at least as long as the
    input. *)
Theorem rerank_keeps_every_chunk (reply : option str)
    (chunks out : list chunk) :
  _rerank_chunks reply chunks = Returned out ->
  (forall c, c ∈ out <-> c ∈ chunks) /\
  (NoDup chunks -> (length chunks <= length out)%nat).
Proof.
intros Hrun.
pose proof (rerank_same_elements reply chunks out Hrun) as Hsame.
split; [exact Hsame|].
intros Hnd. apply submseteq_length, NoDup_submseteq; [exact Hnd|].
intros c Hc. by apply Hsame.
Qed.

Lemma rerank_keeps_every_chunk_witness :
  (forall c, c ∈ stored_chunk "d_chunk_0" "alpha" :: six_chunks
             <-> c ∈ six_chunks) /\
  (NoDup six_chunks ->
   (length six_chunks
    <= length (stored_chunk "d_chunk_0" "alpha" :: six_chunks))%nat).
Proof.
apply (rerank_keeps_every_chunk (Some (lit "0,0")) six_chunks).
vm_compute. reflexivity.
Defined.

Lemma rerank_returns (response : str) (ranking : list Z) (chunks : list chunk) :
  forallb content_sliceable chunks = true ->
  (rerank_top_k < length chunks)%nat ->
  parse_ranking response = Some ranking ->
  _rerank_chunks (Some response) chunks
  = Returned (add_missing (pick_ranked chunks [] ranking) chunks).
Proof.
intros Hs Hlen Hp. unfold _rerank_chunks.
destruct chunks as [|c0 rest]; [simpl in Hlen; lia|].
remember (c0 :: rest) as chunks eqn:E. clear E c0 rest.
destruct (Nat.leb_spec (length chunks) rerank_top_k); [lia|].
by rewrite Hs, Hp.
Qed.

(** X8: for more than [rerank_top_k] pairwise distinct candidates with
    string contents, a reply that parses to a ranking in which no
    in-range index occurs twice makes the rerank return a permutation of
    the candidates: every chunk exactly once. *)
Theorem rerank_distinct_ranking_permutes (response : str) (ranking : list Z)
    (chunks : list chunk) :
  forallb content_sliceable chunks = true ->
  (rerank_top_k < length chunks)%nat ->
  NoDup chunks ->
  parse_ranking response = Some ranking ->
  NoDup (filter (in_range (length chunks)) ranking) ->
  exists out,
    _rerank_chunks (Some response) chunks = Returned out /\ out ≡ₚ chunks.
Proof.
intros Hs Hlen Hnd Hp Hrank. eexists. split.
- by apply rerank_returns.
- eapply (rerank_permutation (Some response)); [exact Hnd| |].
  + intros response' ranking' [= <-] Hp'. congruence.
  + by apply rerank_returns.
Qed.

Lemma rerank_distinct_ranking_permutes_witness :
  exists out,
    _rerank_chunks (Some (lit "5, 3, 9, 0")) six_chunks = Returned out /\
    out ≡ₚ six_chunks.
Proof.
apply (rerank_distinct_ranking_permutes (lit "5, 3, 9, 0") [5; 3; 9; 0]
         six_chunks).
- reflexivity.
- vm_compute. lia.
- apply (bool_decide_unpack _). vm_compute. reflexivity.
- reflexivity.
- apply (bool_decide_unpack _). vm_compute. reflexivity.
Defined.

Lemma pick_ranked_picks (chunks : list chunk) (ranking : list Z) :
  Forall (in_range (length chunks)) ranking ->
  Forall2 (fun idx c => chunks !! Z.to_nat idx = Some c) ranking
          (pick_ranked chunks [] ranking).
Proof.
induction 1 as [|idx ranking [Hlo Hhi] _ IH]; simpl; [constructor|].
destruct (Z.leb_spec 0 idx); [|lia].
destruct (Z.ltb_spec idx (Z.of_nat (length chunks))); [|lia]. simpl.
destruct (chunks !! Z.to_nat idx) as [c|] eqn:Hc.
- rewrite pick_ranked_app. simpl. by constructor.
- apply lookup_ge_None in Hc. lia.
Qed.

Lemma pick_ranked_covers (chunks : list chunk) (ranking : list Z)
    (idx : Z) (c : chunk) :
  idx ∈ ranking -> in_range (length chunks) idx ->
  chunks !! Z.to_nat idx = Some c ->
  c ∈ pick_ranked chunks [] ranking.
Proof.
intros Hin [Hlo Hhi] Hc. induction ranking as [|i ranking IH]; simpl.
- by apply elem_of_nil in Hin.
- apply elem_of_cons in Hin as [<-|Hin].
  + destruct (Z.leb_spec 0 idx); [|lia].
    destruct (Z.ltb_spec idx (Z.of_nat (length chunks))); [|lia]. simpl.
    rewrite Hc, pick_ranked_app. left.
  + specialize (IH Hin).
    destruct (_ && _); [|exact IH].
    destruct (chunks !! Z.to_nat i); [|exact IH].
    rewrite pick_ranked_app. by right.
Qed.

Lemma add_missing_nothing (chunks : list chunk) :
  forall reranked,
    (forall c, c ∈ chunks -> c ∈ reranked) ->
    add_missing reranked chunks = reranked.
Proof.
induction chunks as [|c rest IH]; intros reranked Hall; simpl; [reflexivity|].
destruct (decide (c ∈ reranked)) as [_|Hnot].
- apply IH. intros x Hx. apply Hall. by right.
- exfalso. apply Hnot, Hall. left.
Qed.

(** X9: a complete ranking is followed exactly.  When the reply parses to
    in-range indices among which every position of the candidate list
    occurs, the returned list is the candidates in the order of the
    ranking: its k-th entry is the chunk at the k-th index. *)
Theorem rerank_complete_ranking_followed (response : str) (ranking : list Z)
    (chunks : list chunk) :
  forallb content_sliceable chunks = true ->
  (rerank_top_k < length chunks)%nat ->
  parse_ranking response = Some ranking ->
  Forall (in_range (length chunks)) ranking ->
  (forall i, (i < length chunks)%nat -> Z.of_nat i ∈ ranking) ->
  exists out,
    _rerank_chunks (Some response) chunks = Returned out /\
    Forall2 (fun idx c => chunks !! Z.to_nat idx = Some c) ranking out.
Proof.
intros Hs Hlen Hp Hrange Hcover.
exists (pick_ranked chunks [] ranking). split; [|by apply pick_ranked_picks].
rewrite (rerank_returns response ranking chunks Hs Hlen Hp).
f_equal. apply add_missing_nothing. intros c Hc.
apply list_elem_of_lookup in Hc as [i Hi].
pose proof (lookup_lt_Some _ _ _ Hi) as Hlt.
apply (pick_ranked_covers chunks ranking (Z.of_nat i)).
- by apply Hcover.
- split; lia.
- by rewrite Nat2Z.id.
Qed.

Lemma rerank_complete_ranking_followed_witness :
  exists out,
    _rerank_chunks (Some (lit "2,0,4,1,3,5")) six_chunks = Returned out /\
    Forall2 (fun idx c => six_chunks !! Z.to_nat idx = Some c)
            [2; 0; 4; 1; 3; 5] out.
Proof.
apply (rerank_complete_ranking_followed (lit "2,0,4,1,3,5")
         [2; 0; 4; 1; 3; 5] six_chunks).
- reflexivity.
- vm_compute. lia.
- reflexivity.
- repeat (constructor; [split; [lia|vm_compute; reflexivity]|]). constructor.
- intros i Hi. simpl in Hi.
  do 6 (destruct i as [|i];
        [apply (bool_decide_unpack _); vm_compute; reflexivity|]).
  lia.
Defined.

(** X10: the rerank is skipped or undone without loss: a list of at most
    [rerank_top_k] chunks is returned as it is whatever the reply, and so
    is a longer list with string contents when the completion call fails
    or its reply does not parse as comma-separated integers. *)
Theorem rerank_fallback_unchanged (reply : option str) (chunks : list chunk) :
  (length chunks <= rerank_top_k)%nat \/
  (forallb content_sliceable chunks = true /\
   match reply with
   | Some response => parse_ranking response = None
   | None => True
   end) ->
  _rerank_chunks reply chunks = Returned chunks.
Proof.
intros [Hsmall|[Hs Hr]].
- by apply rerank_small.
- by apply rerank_unparsable.
Qed.

Lemma rerank_fallback_unchanged_witness :
  _rerank_chunks (Some (lit "Here is the ranking: 2, 0")) six_chunks
  = Returned six_chunks.
Proof.
apply (rerank_fallback_unchanged (Some (lit "Here is the ranking: 2, 0"))
         six_chunks).
right. split; reflexivity.
Defined.

(** X11: the preview of the prompt is built before the [try]: for more
    than [rerank_top_k] candidates of which one has a ['content'] that
    is not a string, the rerank raises [TypeError] whatever the reply,
    instead of falling back to the original order. *)
Theorem rerank_type_error (reply : option str) (chunks : list chunk)
    (c : chunk) :
  (rerank_top_k < length chunks)%nat ->
  c ∈ chunks -> content_sliceable c = false ->
  _rerank_chunks reply chunks = TypeError.
Proof.
intros Hlen Hc Hbad. unfold _rerank_chunks.
destruct chunks as [|c0 rest]; [simpl in Hlen; lia|].
remember (c0 :: rest) as chunks eqn:E. clear E c0 rest.
destruct (Nat.leb_spec (length chunks) rerank_top_k); [lia|].
destruct (forallb content_sliceable chunks) eqn:Hall; [|reflexivity].
rewrite forallb_forall in Hall. apply list_elem_of_In in Hc.
rewrite (Hall c Hc) in Hbad. discriminate.
Qed.

Lemma rerank_type_error_witness :
  _rerank_chunks (Some (lit "0,1"))
    (<["content" := VNone]> (stored_chunk "d_chunk_6" "") :: six_chunks)
  = TypeError.
Proof.
apply (rerank_type_error (Some (lit "0,1"))
         (<["content" := VNone]> (stored_chunk "d_chunk_6" "") :: six_chunks)
         (<["content" := VNone]> (stored_chunk "d_chunk_6" ""))).
- vm_compute. lia.
- left.
- reflexivity.
Defined.

(** *** The retrieval stage *)

Lemma retrieved_from_store (l : list chunk) (c : chunk) :
  c ∈ _deduplicate_chunks l -> c ∈ l.
Proof.
intros Hc. eapply elem_of_sublist; [exact Hc|apply dedup_loop_sublist].
Qed.

Lemma deduplicate_chunks_NoDup (l : list chunk) :
  NoDup (_deduplicate_chunks l).
Proof.
apply (NoDup_fmap_1 chunk_key), dedup_loop_NoDup; [constructor|].
intros c Hc. by apply elem_of_nil in Hc.
Qed.

(** X12: when the retrieval stage returns, it selects
    [min(rerank_top_k, unique)] chunks, where [unique] is the number of
    deduplicated results and is at most the number of raw results; every
    selected chunk was returned by the vector store for one of the
    queries used; and the original question is the first query used. *)
Theorem process_selection (store : vector_store)
    (expansion ranking : option str) (question : str)
    (course_id : option string) (r : retrieval) :
  process store expansion ranking question course_id = Some r ->
  final_chunks r = length (retrieved_chunks r) /\
  final_chunks r = (rerank_top_k `min` unique_chunks r)%nat /\
  (unique_chunks r <= total_retrieved r)%nat /\
  (forall c, c ∈ retrieved_chunks r ->
     exists query, query ∈ queries_used r /\
                   c ∈ _retrieve_chunks store query course_id top_k) /\
  head (queries_used r) = Some question.
Proof.
unfold process.
set (queries := _expand_query expansion question).
set (all := concat (map (fun query =>
                           _retrieve_chunks store query course_id top_k)
                        queries)).
destruct (_rerank_chunks ranking (_deduplicate_chunks all))
  as [reranked|] eqn:Hrr; [|discriminate].
intros [= <-].
cbn [final_chunks retrieved_chunks unique_chunks total_retrieved queries_used].
pose proof (rerank_same_elements _ _ _ Hrr) as Hsame.
assert (length (_deduplicate_chunks all) <= length reranked)%nat as Hlen.
{ apply submseteq_length, NoDup_submseteq; [apply deduplicate_chunks_NoDup|].
  intros c Hc. by apply Hsame. }
split; [reflexivity|]. split; [|split; [|split]].
- rewrite length_take.
  destruct (Nat.le_gt_cases (length (_deduplicate_chunks all)) rerank_top_k)
    as [Hsmall|Hbig].
  + rewrite (rerank_small ranking _ Hsmall) in Hrr. injection Hrr as <-. lia.
  + lia.
- apply sublist_length, dedup_loop_sublist.
- intros c Hc. apply elem_of_take in Hc as (i & Hc & _).
  apply list_elem_of_lookup_2, Hsame, retrieved_from_store in Hc.
  subst all. apply list_elem_of_In, in_concat in Hc as (l & Hl & Hc).
  apply in_map_iff in Hl as (query & <- & Hq).
  exists query. split; by apply list_elem_of_In.
- subst queries. by destruct expansion.
Qed.

Lemma process_selection_witness :
  final_chunks
    (Retrieval [stored_chunk "d_chunk_0" "alpha"; stored_chunk "d_chunk_1" "beta"]
               2 2 2 [lit "what is a chunk"])
  = (rerank_top_k `min` 2)%nat.
Proof.
refine (proj1 (proj2 (process_selection two_chunk_store None None
                        (lit "what is a chunk") (Some "course-1")
                        (Retrieval [stored_chunk "d_chunk_0" "alpha";
                                    stored_chunk "d_chunk_1" "beta"]
                                   2 2 2 [lit "what is a chunk"]) _))).
vm_compute. reflexivity.
Defined.


End SrcRetrievalFacts.

(** ** The cache: embeddings, graphs, overwrites, hits, sweeps *)

Module CacheFacts.
Import CacheService CacheServiceFacts.

Section Service.
Variable sha256_hexdigest : string -> string.
Variable payload : Type.
Variable json_dumps : payload -> string.
Variable json_loads : string -> payload.

Let key := _generate_cache_key sha256_hexdigest.
Let get := get_cached_response sha256_hexdigest payload json_loads.
Let put := cache_response sha256_hexdigest payload json_dumps.
Let get_embedding := get_cached_embedding sha256_hexdigest payload json_loads.
Let put_embedding := cache_embedding sha256_hexdigest payload json_dumps.
Let get_graph := get_cached_concept_graph payload json_loads.
Let put_graph := cache_concept_graph payload json_dumps.
Let hash := _hash_text sha256_hexdigest.


(** X13: an embedding that survives the JSON round trip is read back
    for its text, other texts (with another hash) read what they read
    before, and no operation on the query or graph tables (eviction of a
    course, sweep of expired rows, caching or reading a response, caching
    a graph) changes what is read for any text. *)
Theorem embedding_round_trip (d : db) (text : string) (emb : payload)
    (mdl : string) :
  json_loads (json_dumps emb) = emb ->
  get_embedding (put_embedding d text emb mdl) text = Some emb /\
  (forall text', hash text' <> hash text ->
     get_embedding (put_embedding d text emb mdl) text'
     = get_embedding d text') /\
  (forall text' course now query v c ttl g,
     get_embedding (clear_course_cache d course) text'
     = get_embedding d text' /\
     get_embedding (clear_expired d now) text' = get_embedding d text' /\
     get_embedding (put d now query v c ttl) text' = get_embedding d text' /\
     get_embedding (snd (get d now query c)) text' = get_embedding d text' /\
     get_embedding (put_graph d now course g) text' = get_embedding d text').
Proof.
intros Hround. split; [|split].
- unfold get_embedding, put_embedding, get_cached_embedding, cache_embedding.
  simpl. rewrite lookup_insert_eq. simpl. by rewrite Hround.
- intros text' Hne.
  unfold get_embedding, put_embedding, get_cached_embedding, cache_embedding.
  simpl. rewrite lookup_insert_ne; [reflexivity|]. intros Heq. apply Hne.
  symmetry. exact Heq.
- intros text' course now query v c ttl g. repeat split.
  unfold get, get_cached_response.
  destruct (query_cache d !! _); [|reflexivity].
  destruct (live now q); reflexivity.
Qed.

(** X14: the graph cached for a course is read back for that course (the
    last one cached wins); evicting the course removes it, evicting
    another course or sweeping expired rows does not. *)
Theorem concept_graph_round_trip (d : db) (course other : string)
    (g1 g2 : payload) (t1 t2 now : Z) :
  json_loads (json_dumps g2) = g2 ->
  get_graph (put_graph (put_graph d t1 course g1) t2 course g2) course
  = Some g2 /\
  get_graph (clear_course_cache (put_graph d t2 course g2) course) course
  = None /\
  (other <> course ->
   get_graph (clear_course_cache (put_graph d t2 course g2) other) course
   = Some g2) /\
  get_graph (clear_expired (put_graph d t2 course g2) now) course = Some g2.
Proof.
intros Hround.
unfold get_graph, put_graph, get_cached_concept_graph, cache_concept_graph,
  clear_course_cache, clear_expired. simpl.
split; [|split; [|split]].
- rewrite lookup_insert_eq. simpl. by rewrite Hround.
- by rewrite lookup_delete_eq.
- intros Hne. rewrite lookup_delete_ne by exact Hne.
  rewrite lookup_insert_eq. simpl. by rewrite Hround.
- rewrite lookup_insert_eq. simpl. by rewrite Hround.
Qed.


Lemma sum_hits_insert (rows : gmap string query_row) (k : string)
    (row : query_row) :
  rows !! k = None -> sum_hits (<[k := row]> rows) = hit_count row + sum_hits rows.
Proof.
intros Hk. unfold sum_hits.
rewrite (map_fold_insert_L (fun _ r acc => hit_count r + acc)); [reflexivity| |exact Hk].
intros. lia.
Qed.

Lemma sum_hits_bump (rows : gmap string query_row) (k : string)
    (row row' : query_row) :
  rows !! k = Some row -> hit_count row' = hit_count row + 1 ->
  sum_hits (<[k := row']> rows) = sum_hits rows + 1.
Proof.
intros Hk Hh.
rewrite <- (insert_delete_id rows k row Hk) at 2.
rewrite <- (insert_delete_eq rows k row').
rewrite !sum_hits_insert by apply lookup_delete_eq. lia.
Qed.

(** X16: a read that finds a live entry adds exactly one to the hit
    counter of that entry and changes nothing else: every other row and
    both other tables stay as they are, the number of entries is the
    same, the reported total of hits grows by one, and the same read can
    be repeated with the same answer.  A read that finds nothing leaves
    the database untouched. *)
Theorem read_counts_one_hit (d : db) (now : Z) (query : string)
    (course_id : option string) :
  (forall v d',
     get d now query course_id = (Some v, d') ->
     (exists row,
        query_cache d !! key query course_id = Some row /\
        query_cache d' !! key query course_id
        = Some (QueryRow (response row) (q_course_id row) (expires_at row)
                         (hit_count row + 1))) /\
     (forall k, k <> key query course_id ->
                query_cache d' !! k = query_cache d !! k) /\
     embedding_cache d' = embedding_cache d /\
     concept_graph_cache d' = concept_graph_cache d /\
     query_cache_entries (get_cache_stats d')
     = query_cache_entries (get_cache_stats d) /\
     total_cache_hits (get_cache_stats d')
     = total_cache_hits (get_cache_stats d) + 1 /\
     fst (get d' now query course_id) = Some v) /\
  (fst (get d now query course_id) = None ->
   snd (get d now query course_id) = d).
Proof.
unfold get, get_cached_response. fold (key query course_id).
destruct (query_cache d !! key query course_id) as [row|] eqn:Hrow.
- destruct (live now row) eqn:Hlive.
  + split; [|discriminate]. intros v d' [= <- <-]. simpl.
    split; [exists row; split; [reflexivity|apply lookup_insert_eq]|].
    split; [intros k Hk; by apply lookup_insert_ne|].
    split; [reflexivity|]. split; [reflexivity|].
    split; [|split].
    * apply map_size_insert_Some. by rewrite Hrow.
    * by apply (sum_hits_bump _ _ row).
    * rewrite lookup_insert_eq. unfold live in *. simpl. by rewrite Hlive.
  + split; [discriminate|reflexivity].
- split; [discriminate|reflexivity].
Qed.

(** X17: the sweep deletes exactly the rows whose expiry lies before the
    instant of the sweep, and it changes no answer: at that instant and
    at any later one every read returns what it would return without the
    sweep. *)
Theorem sweep_changes_no_answer (d : db) (sweep_time : Z) :
  (forall k,
     query_cache (clear_expired d sweep_time) !! k
     = match query_cache d !! k with
       | Some row => if swept sweep_time row then None else Some row
       | None => None
       end) /\
  (forall now query course_id,
     sweep_time <= now ->
     fst (get (clear_expired d sweep_time) now query course_id)
     = fst (get d now query course_id)).
Proof.
assert (forall k,
     query_cache (clear_expired d sweep_time) !! k
     = match query_cache d !! k with
       | Some row => if swept sweep_time row then None else Some row
       | None => None
       end) as Hlookup.
{ intros k. unfold clear_expired. simpl.
  destruct (query_cache d !! k) as [row|] eqn:Hk.
  - destruct (swept sweep_time row) eqn:Hs.
    + apply map_lookup_filter_None. right. intros row' Hrow'. simpl. congruence.
    + apply map_lookup_filter_Some. split; [exact Hk|exact Hs].
  - apply map_lookup_filter_None. by left. }
split; [exact Hlookup|].
intros now query course_id Hlater.
unfold get, get_cached_response. fold (key query course_id).
rewrite Hlookup.
destruct (query_cache d !! key query course_id) as [row|]; [|reflexivity].
destruct (swept sweep_time row) eqn:Hs.
- unfold swept in Hs. unfold live.
  destruct (expires_at row) as [e|]; [|discriminate].
  destruct (Z.ltb_spec e sweep_time); [|discriminate].
  destruct (Z.ltb_spec now e); [lia|reflexivity].
- destruct (live now row); reflexivity.
Qed.





Lemma batch_lookup (d : db) (texts : list string) :
  forall (results : gmap string (option payload)) (text : string),
    get_cached_embeddings_batch sha256_hexdigest payload json_loads d texts
      results !! text
    = if decide (text ∈ texts) then Some (get_embedding d text)
      else results !! text.
Proof.
induction texts as [|x rest IH]; intros results text; simpl.
- destruct (decide (text ∈ [])) as [Hin|_]; [|reflexivity].
  by apply elem_of_nil in Hin.
- rewrite IH. destruct (decide (text ∈ rest)) as [Hin|Hnot].
  + rewrite decide_True; [reflexivity|by right].
  + destruct (decide (text = x)) as [->|Hne].
    * rewrite decide_True by left. by rewrite lookup_insert_eq.
    * rewrite decide_False.
      -- by rewrite lookup_insert_ne.
      -- intros [?|?]%elem_of_cons; contradiction.
Qed.

(** X21: the batch lookup returns a dictionary whose keys are exactly the
    texts asked for, each mapped to what the single lookup returns for
    it. *)
Theorem embeddings_batch_per_text (d : db) (texts : list string)
    (text : string) :
  get_cached_embeddings_batch sha256_hexdigest payload json_loads d texts ∅
    !! text
  = if decide (text ∈ texts) then Some (get_embedding d text) else None.
Proof. rewrite batch_lookup. by rewrite lookup_empty. Qed.

End Service.

Lemma embedding_round_trip_witness :
  get_cached_embedding (fun s => s) string (fun s => s)
    (cache_embedding (fun s => s) string (fun s => s) empty_db
       "a chunk of text" "[0.25, 0.5]" "text-embedding-ada-002")
    "a chunk of text"
  = Some "[0.25, 0.5]".
Proof.
apply (proj1 (embedding_round_trip (fun s => s) string (fun s => s)
                (fun s => s) empty_db "a chunk of text" "[0.25, 0.5]"
                "text-embedding-ada-002" eq_refl)).
Defined.

Lemma concept_graph_round_trip_witness :
  get_cached_concept_graph string (fun s => s)
    (clear_course_cache
       (cache_concept_graph string (fun s => s) empty_db 20 "course-1"
          "second graph")
       "course-2")
    "course-1"
  = Some "second graph".
Proof.
apply (proj1 (proj2 (proj2 (concept_graph_round_trip string (fun s => s)
                              (fun s => s) empty_db "course-1" "course-2"
                              "first graph" "second graph" 10 20 30
                              eq_refl)))).
discriminate.
Defined.


Lemma read_counts_one_hit_witness :
  total_cache_hits
    (get_cache_stats
       (snd (get_cached_response (fun s => s) string (fun s => s)
               one_response_db 1500 "what is a chunk" (Some "course-1"))))
  = total_cache_hits (get_cache_stats one_response_db) + 1.
Proof.
apply (proj1 (read_counts_one_hit (fun s => s) string (fun s => s)
                one_response_db 1500 "what is a chunk" (Some "course-1"))
         "an answer").
reflexivity.
Defined.

Lemma sweep_changes_no_answer_witness :
  fst (get_cached_response (fun s => s) string (fun s => s)
         (clear_expired one_response_db 2500) 3000 "what is a chunk"
         (Some "course-1"))
  = fst (get_cached_response (fun s => s) string (fun s => s)
           one_response_db 3000 "what is a chunk" (Some "course-1")).
Proof.
apply (proj2 (sweep_changes_no_answer (fun s => s) string (fun s => s)
                one_response_db 2500)).
lia.
Defined.




End CacheFacts.

(** ** The retrieval stage of [agents/]: fallback and alignment *)

Module RetrievalStageFacts.
Import RetrievalAgent RetrievalAgentFacts.

#[local] Open Scope Q_scope.

Lemma filter_results_all_low (results : list search_result) :
  Forall (fun r => score_of r < min_score) results ->
  filter_results results = take 3 results.
Proof.
intros Hlow. unfold filter_results. rewrite filter_all_false.
- destruct results; reflexivity.
- eapply Forall_impl; [exact Hlow|]. intros r Hr. simpl in Hr.
  destruct (meets_threshold r) eqn:Hm; [|reflexivity].
  apply meets_threshold_iff in Hm. exfalso. eapply Qlt_not_le; eassumption.
Qed.

Lemma filter_results_passing (results : list search_result) :
  (exists r, r ∈ results /\ min_score <= score_of r) ->
  filter_results results = List.filter meets_threshold results /\
  filter_results results <> [].
Proof.
intros (r & Hr & Hs).
assert (List.filter meets_threshold results <> []) as Hne.
{ intros Hnil. apply list_elem_of_In in Hr.
  assert (In r (List.filter meets_threshold results)) as Hf
    by (apply filter_In; split; [exact Hr|by apply meets_threshold_iff]).
  rewrite Hnil in Hf. exact Hf. }
rewrite (filter_results_some_pass results Hne). by split.
Qed.

Lemma filter_results_sublist (results : list search_result) :
  sublist (filter_results results) results.
Proof.
unfold filter_results.
destruct (List.filter meets_threshold results) as [|x l] eqn:Hf.
- destruct results as [|r rest]; [constructor|apply sublist_take].
- rewrite <- Hf. apply filter_sublist.
Qed.

(** X22: the retrieval stage returns nothing only when the search found
    nothing; what it returns is always a sublist of the search results,
    in their order, and on the fallback path it has at most three
    entries. *)
Theorem filter_results_never_hides_all (results : list search_result) :
  (filter_results results = [] <-> results = []) /\
  sublist (filter_results results) results /\
  (Forall (fun r => score_of r < min_score) results ->
   (length (filter_results results) <= 3)%nat).
Proof.
split; [|split].
- unfold filter_results. split.
  + destruct (List.filter meets_threshold results) as [|x l] eqn:Hf.
    * destruct results as [|r rest]; [reflexivity|discriminate].
    * discriminate.
  + intros ->. reflexivity.
- apply filter_results_sublist.
- intros Hlow. rewrite (filter_results_all_low results Hlow).
  rewrite length_take. lia.
Qed.

Lemma score_sum_lower (m : Q) (results : list search_result) :
  Forall (fun r => m <= score_of r) results ->
  m * inject_Z (Z.of_nat (length results)) <= score_sum results.
Proof.
induction 1 as [|r rest Hr _ IH].
- change (m * 0 <= 0). lra.
- cbn [score_sum foldr length]. fold (score_sum rest).
  rewrite Nat2Z.inj_succ, <- Z.add_1_r, inject_Z_plus.
  change (inject_Z 1) with 1. lra.
Qed.

Lemma length_pos_Q {A} (x : A) (l : list A) :
  0 < inject_Z (Z.of_nat (length (x :: l))).
Proof. change 0 with (inject_Z 0). rewrite <- Zlt_Qlt. simpl. lia. Qed.

Lemma alignment_lower (m : Q) (filtered : list search_result) :
  filtered <> [] -> m <= 1 ->
  Forall (fun r => m <= score_of r) filtered ->
  m <= alignment_of filtered.
Proof.
intros Hne Hm Hall. destruct filtered as [|x l]; [congruence|].
unfold alignment_of. apply Q.min_glb; [|exact Hm].
apply Qle_shift_div_l; [apply length_pos_Q|].
by apply score_sum_lower.
Qed.

(** X23: the curriculum alignment of the retrieval stage is 0 when the
    search found nothing and never exceeds 1; it is at least [min_score]
    as soon as one result reaches [min_score], and it is not negative
    when no score is negative. *)
Theorem process_alignment_bounds (results : list search_result) :
  process_alignment [] == 0 /\
  process_alignment results <= 1 /\
  ((exists r, r ∈ results /\ min_score <= score_of r) ->
   min_score <= process_alignment results) /\
  (Forall (fun r => 0 <= score_of r) results ->
   0 <= process_alignment results).
Proof.
split; [reflexivity|]. split; [|split].
- unfold process_alignment, alignment_of.
  destruct (filter_results results); [lra|apply Q.le_min_r].
- intros Hex. unfold process_alignment.
  destruct (filter_results_passing results Hex) as [Heq Hne].
  apply alignment_lower; [exact Hne|unfold min_score; lra|].
  rewrite Heq. apply Forall_forall. intros r Hr.
  apply list_elem_of_In, filter_In in Hr as [_ Hr].
  by apply meets_threshold_iff.
- intros Hpos. unfold process_alignment.
  destruct (filter_results results) as [|x l] eqn:Hf; [simpl; lra|].
  rewrite <- Hf. apply alignment_lower; [rewrite Hf; discriminate|lra|].
  apply Forall_forall. intros r Hr.
  rewrite Forall_forall in Hpos. apply Hpos.
  eapply elem_of_sublist; [exact Hr|].
  apply filter_results_sublist.
Qed.

Lemma process_alignment_bounds_witness :
  min_score <= process_alignment mixed_results.
Proof.
apply (proj1 (proj2 (proj2 (process_alignment_bounds mixed_results)))).
exists (SearchResult "b" "second" (Some (9 # 10))).
split; [right; left|discriminate].
Defined.

Lemma filter_results_never_hides_all_witness :
  (length (filter_results low_results) <= 3)%nat.
Proof.
apply (proj2 (proj2 (filter_results_never_hides_all low_results))).
repeat (constructor; [reflexivity|]). constructor.
Defined.

End RetrievalStageFacts.

(** ** Excerpts, sources and alignment of the verification stage *)

Module VerificationFacts.
Import PyStr PyStrFacts VerificationAgent VerificationAgentFacts.
Import Orchestrator SourceExtraction.

#[local] Open Scope Q_scope.

Lemma rsplit1_head_length (c : ascii) (s : str) :
  (length (rsplit1_head c s) <= length s)%nat.
Proof.
unfold rsplit1_head. destruct (rfind c s <? 0)%Z; [lia|].
rewrite length_take. lia.
Qed.

Lemma slice_to_length (j : Z) (s : str) :
  (length (slice_to j s) <= length s)%nat.
Proof.
unfold slice_to. destruct (j <? 0)%Z; rewrite length_take; lia.
Qed.

(** X24: an excerpt is never longer than 153 characters (150 and the
    ellipsis); a text of at most 150 characters is its own excerpt; and
    the excerpt of a longer text is a proper prefix of the text, of at
    most 150 characters, followed or not by the ellipsis. *)
Theorem create_excerpt_length (text : str) :
  (length (create_excerpt text) <= 153)%nat /\
  ((length text <= 150)%nat -> create_excerpt text = text) /\
  ((150 < length text)%nat ->
   exists n, (n <= 150)%nat /\
             (create_excerpt text = take n text \/
              create_excerpt text = take n text ++ lit "...")).
Proof.
unfold create_excerpt, _create_excerpt.
destruct (Z.leb_spec (len text) 150) as [Hshort|Hlong].
- unfold len in Hshort. split; [lia|]. split; [reflexivity|lia].
- unfold len in Hlong. change (slice_to 150 text) with (take 150 text).
  change (150 / 2)%Z with 75%Z.
  assert (length (take 150 text) = 150%nat) as Htr
    by (rewrite length_take; lia).
  destruct (75 <? rfind "."%char (take 150 text))%Z eqn:Hmid.
  + apply Z.ltb_lt in Hmid.
    destruct (rfind_cases "."%char (take 150 text))
      as [[Hr _]|(p & Hr & Hp)]; [lia|].
    pose proof (last_at_take_bound _ _ _ _ Hp) as Hp150.
    rewrite Hr, slice_to_nonneg by lia.
    replace (Z.to_nat (Z.of_nat p + 1)) with (p + 1)%nat by lia.
    rewrite take_of_take by lia.
    split; [rewrite length_take; lia|]. split; [lia|].
    intros _. exists (p + 1)%nat. split; [lia|by left].
  + assert (exists n, (n <= 150)%nat /\
                      rsplit1_head " "%char (take 150 text) = take n text)
      as (n & Hn & ->).
    { unfold rsplit1_head.
      destruct (rfind_cases " "%char (take 150 text))
        as [[-> _]|(p & -> & Hp)].
      - exists 150%nat. split; [lia|reflexivity].
      - pose proof (last_at_take_bound _ _ _ _ Hp) as Hp150.
        destruct (Z.ltb_spec (Z.of_nat p) 0); [lia|].
        rewrite Nat2Z.id. exists p. split; [lia|].
        apply take_of_take. lia. }
    split; [rewrite length_app, length_take; simpl; lia|].
    split; [lia|]. intros _. exists n. split; [exact Hn|by right].
Qed.

(** The bound 153 is reached: 151 letters give 150 letters and the
    ellipsis. *)
Example create_excerpt_153 :
  length (create_excerpt (replicate 151 "a"%char)) = 153%nat.
Proof. vm_compute. reflexivity. Qed.

Lemma create_excerpt_length_witness :
  exists n, (n <= 150)%nat /\
            (create_excerpt early_period_text = take n early_period_text \/
             create_excerpt early_period_text
             = take n early_period_text ++ lit "...").
Proof.
apply (proj2 (proj2 (create_excerpt_length early_period_text))).
vm_compute. lia.
Defined.

(** *** Sources *)

Section Sources.
Variable round2 : Q -> Q.

Let more_confident (a b : source) : Prop := src_confidence b <= src_confidence a.

Lemma insert_desc_perm (s : source) (l : list source) :
  insert_desc s l ≡ₚ s :: l.
Proof.
induction l as [|x rest IH]; simpl; [reflexivity|].
destruct (Qle_bool _ _); [reflexivity|].
rewrite IH. apply Permutation_swap.
Qed.

Lemma sort_desc_perm (l : list source) : sort_desc l ≡ₚ l.
Proof.
induction l as [|x rest IH]; simpl; [reflexivity|].
rewrite insert_desc_perm. by rewrite IH.
Qed.

Lemma insert_desc_sorted (s : source) (l : list source) :
  StronglySorted more_confident l ->
  StronglySorted more_confident (insert_desc s l).
Proof.
induction 1 as [|x rest Hsorted IH Hall]; simpl.
- repeat constructor.
- destruct (Qle_bool (src_confidence x) (src_confidence s)) eqn:Hle.
  + apply Qle_bool_iff in Hle. constructor; [by constructor|].
    constructor; [exact Hle|].
    eapply Forall_impl; [exact Hall|]. intros y Hy.
    unfold more_confident in *. eapply Qle_trans; eassumption.
  + constructor; [exact IH|].
    rewrite insert_desc_perm. constructor; [|exact Hall].
    unfold more_confident.
    destruct (Qlt_le_dec (src_confidence s) (src_confidence x)) as [Hlt|Hge].
    * by apply Qlt_le_weak.
    * apply Qle_bool_iff in Hge. congruence.
Qed.

Lemma sort_desc_sorted (l : list source) :
  StronglySorted more_confident (sort_desc l).
Proof.
induction l as [|x rest IH]; simpl; [constructor|].
by apply insert_desc_sorted.
Qed.

Lemma sources_loop_app (chunks : list scored_chunk) :
  forall seen sources,
    sources_loop round2 seen sources chunks
    = sources ++ sources_loop round2 seen [] chunks.
Proof.
induction chunks as [|c rest IH]; intros seen sources; simpl.
- by rewrite app_nil_r.
- destruct (decide (source_key c ∈ seen)); [apply IH|].
  rewrite (IH _ (sources ++ [make_source round2 c])),
    (IH _ [make_source round2 c]).
  by rewrite <- app_assoc.
Qed.

Lemma sources_loop_origin (chunks : list scored_chunk) :
  forall seen s,
    s ∈ sources_loop round2 seen [] chunks ->
    exists c, c ∈ chunks /\ s = make_source round2 c.
Proof.
induction chunks as [|c rest IH]; intros seen s; simpl.
- intros Hs. by apply elem_of_nil in Hs.
- destruct (decide (source_key c ∈ seen)).
  + intros Hs. apply IH in Hs as (c' & Hc' & ->). exists c'. split; [by right|done].
  + rewrite sources_loop_app. intros [Hs|Hs]%elem_of_app.
    * apply list_elem_of_singleton in Hs as ->. exists c. split; [left|done].
    * apply IH in Hs as (c' & Hc' & ->). exists c'. split; [by right|done].
Qed.

(** X25: source extraction returns at most five sources, in order of
    decreasing confidence; each of them is the citation of one of the
    given chunks; and the result is empty only when no chunk is given. *)
Theorem extract_sources_top_five (chunks : option (list scored_chunk)) :
  (length (_extract_sources round2 chunks) <= 5)%nat /\
  StronglySorted (fun a b => src_confidence b <= src_confidence a)
                 (_extract_sources round2 chunks) /\
  (forall s, s ∈ _extract_sources round2 chunks ->
     exists l c, chunks = Some l /\ c ∈ l /\ s = make_source round2 c) /\
  (_extract_sources round2 chunks = [] <->
   chunks = None \/ chunks = Some []).
Proof.
destruct chunks as [[|c rest]|].
- simpl. split; [lia|]. split; [constructor|]. split.
  + intros s Hs. by apply elem_of_nil in Hs.
  + split; [by right|reflexivity].
- cbn [_extract_sources].
  set (all := sources_loop round2 ∅ [] (c :: rest)).
  split; [rewrite length_take; lia|]. split; [|split].
  + apply (StronglySorted_app_1_l _ _ (drop 5 (sort_desc all))).
    rewrite take_drop. apply sort_desc_sorted.
  + intros s Hs. apply elem_of_take in Hs as (i & Hs & _).
    apply list_elem_of_lookup_2 in Hs. rewrite sort_desc_perm in Hs.
    apply sources_loop_origin in Hs as (c' & Hc' & ->).
    by exists (c :: rest), c'.
  + split; [|intros [?|?]; discriminate].
    intros Hnil. exfalso.
    assert (length (sort_desc all) = length all) as Hlen
      by (by rewrite sort_desc_perm).
    assert (0 < length all)%nat as Hpos.
    { subst all. simpl. rewrite decide_False by apply not_elem_of_empty.
      rewrite sources_loop_app, length_app. simpl. lia. }
    apply (f_equal length) in Hnil. rewrite length_take in Hnil.
    change (length []) with 0%nat in Hnil. lia.
- simpl. split; [lia|]. split; [constructor|]. split.
  + intros s Hs. by apply elem_of_nil in Hs.
  + split; [by left|reflexivity].
Qed.

End Sources.

Example extract_sources_example :
  map (fun s => (chunk_id s, src_confidence s))
      (_extract_sources (fun q => q) (Some three_scored_chunks))
  = [("c2"%string, 9 # 10); ("c1"%string, 6 # 10)].
Proof. reflexivity. Qed.

(** *** Alignment *)

Lemma confidence_sum_upper (m : Q) (sources : list source) :
  Forall (fun s => src_confidence s <= m) sources ->
  foldr (fun s acc => src_confidence s + acc) 0 sources
  <= m * inject_Z (Z.of_nat (length sources)).
Proof.
induction 1 as [|s rest Hs _ IH].
- change (0 <= m * 0). lra.
- cbn [foldr length].
  rewrite Nat2Z.inj_succ, <- Z.add_1_r, inject_Z_plus.
  change (inject_Z 1) with 1. lra.
Qed.

(** X26: the verification stage never lowers the curriculum alignment:
    the updated value is at least the previous one and, when there are
    sources, at least their mean confidence; it stays at most 1 when the
    previous value and every confidence are at most 1. *)
Theorem updated_alignment_monotone (alignment : Q)
    (sources : option (list source)) :
  alignment <= updated_alignment alignment sources /\
  (forall s l, sources = Some (s :: l) ->
     mean_confidence (s :: l) <= updated_alignment alignment sources) /\
  (alignment <= 1 ->
   (forall l, sources = Some l -> Forall (fun s => src_confidence s <= 1) l) ->
   updated_alignment alignment sources <= 1).
Proof.
split; [|split].
- destruct sources as [[|s l]|]; simpl; try lra. apply Q.le_max_l.
- intros s l ->. simpl. apply Q.le_max_r.
- intros Hold Hconf. destruct sources as [[|s l]|]; simpl; try exact Hold.
  apply Q.max_lub; [exact Hold|].
  unfold mean_confidence. apply Qle_shift_div_r.
  + change 0 with (inject_Z 0). rewrite <- Zlt_Qlt. simpl. lia.
  + apply confidence_sum_upper. by apply Hconf.
Qed.

Lemma updated_alignment_monotone_witness :
  updated_alignment (5 # 10)
    (Some [Source "Notes" (Some 2%Z) "c2" (9 # 10) "Other text."]) <= 1.
Proof.
apply (proj2 (proj2 (updated_alignment_monotone (5 # 10)
         (Some [Source "Notes" (Some 2%Z) "c2" (9 # 10) "Other text."])))).
- discriminate.
- intros l [= <-]. constructor; [discriminate|constructor].
Defined.

End VerificationFacts.

(** ** The composer and the final response *)

Module PedagogyStageFacts.
Import PyStr Json PedagogyAgent PedagogyAgentFacts PedagogyStage Orchestrator.

#[local] Open Scope Q_scope.

Lemma prepare_context_bracket (c : context_chunk) (l : list context_chunk) :
  exists rest, _prepare_context (Some (c :: l)) = "["%char :: rest.
Proof.
unfold _prepare_context. cbn [imap]. unfold context_part at 1.
destruct (imap (context_part ∘ S) l); simpl; eauto.
Qed.

(** X27: the general-knowledge prompt is built exactly when no chunk was
    retrieved; with at least one chunk the course-material prompt is
    built around the prepared context, whatever the chunks contain. *)
Theorem build_prompt_framing (question : str)
    (chunks : option (list context_chunk)) :
  (chunks = None \/ chunks = Some [] ->
   _build_prompt question (_prepare_context chunks)
   = GeneralKnowledgePrompt question) /\
  (forall c l, chunks = Some (c :: l) ->
   _build_prompt question (_prepare_context chunks)
   = CourseMaterialPrompt (_prepare_context chunks) question).
Proof.
split.
- intros [-> | ->]; reflexivity.
- intros c l ->. destruct (prepare_context_bracket c l) as [rest Hctx].
  unfold _build_prompt. rewrite Hctx. cbn [PyStr.truthy andb].
  rewrite bool_decide_true by discriminate. reflexivity.
Qed.

Lemma build_prompt_framing_witness :
  _build_prompt (lit "what is a chunk")
    (_prepare_context
       (Some [ContextChunk None
                (Some (lit "No relevant course material found."))]))
  = CourseMaterialPrompt
      (_prepare_context
         (Some [ContextChunk None
                  (Some (lit "No relevant course material found."))]))
      (lit "what is a chunk").
Proof.
apply (proj2 (build_prompt_framing (lit "what is a chunk")
                (Some [ContextChunk None
                         (Some (lit "No relevant course material found."))]))
         (ContextChunk None (Some (lit "No relevant course material found.")))
         []).
reflexivity.
Defined.

Example prepare_context_two_chunks :
  _prepare_context
    (Some [ContextChunk (Some (lit "notes.pdf")) (Some (lit "First."));
           ContextChunk None (Some (lit "Second."))])
  = lit "[notes.pdf]" ++ [newline] ++ lit "First."
    ++ [newline; newline] ++ lit "---" ++ [newline; newline]
    ++ lit "[Source 2]" ++ [newline] ++ lit "Second.".
Proof. reflexivity. Qed.

(** *** Confidence *)

Lemma chunk_boost_full (n : nat) :
  (2 # 10) * Qmin (inject_Z (Z.of_nat n) / 5) 1 == 2 # 10 <-> (5 <= n)%nat.
Proof.
split.
- intros Heq. destruct (Nat.le_gt_cases 5 n) as [Hge|Hsmall]; [exact Hge|].
  exfalso.
  do 5 (destruct n as [|n]; [vm_compute in Heq; discriminate|]). lia.
- intros Hge. rewrite Q.min_r; [lra|].
  apply Qle_shift_div_l; [lra|].
  change (1 * 5) with (inject_Z 5). rewrite <- Zle_Qle. lia.
Qed.

(** X28: the composer reports full confidence exactly when at least five
    chunks were retrieved and the answer has a non-empty definition,
    explanation, example and list of pitfalls. *)
Theorem calculate_confidence_full {A : Type} (answer : gmap string json)
    (chunks : option (list A)) :
  _calculate_confidence answer chunks == 1 <->
  (exists l, chunks = Some l /\ (5 <= length l)%nat) /\
  truthy (get answer "definition") = true /\
  truthy (get answer "explanation") = true /\
  truthy (get answer "example") = true /\
  truthy (get answer "pitfalls") = true.
Proof.
unfold _calculate_confidence.
set (boost := match chunks with
              | Some ((_ :: _) as l) =>
                  (2 # 10) * Qmin (inject_Z (Z.of_nat (length l)) / 5) 1
              | _ => 0
              end).
assert (0 <= boost <= 2 # 10) as Hrange.
{ subst boost. destruct chunks as [[|x l]|]; try lra.
  apply chunk_boost_range. }
assert (boost == 2 # 10 <-> exists l, chunks = Some l /\ (5 <= length l)%nat)
  as Hfull.
{ subst boost. destruct chunks as [[|x l]|].
  - split; [lra|]. intros (l & [= <-] & Hl). simpl in Hl. lia.
  - rewrite chunk_boost_full. split.
    + intros Hl. by exists (x :: l).
    + by intros (l' & [= <-] & Hl).
  - split; [lra|]. by intros (l & ? & _). }
assert (match chunks with
        | Some ((_ :: _) as l) =>
            (5 # 10) + (2 # 10) * Qmin (inject_Z (Z.of_nat (length l)) / 5) 1
        | _ => 5 # 10
        end == (5 # 10) + boost) as Hbase.
{ subst boost. destruct chunks as [[|x l]|]; lra. }
set (base := match chunks with
             | Some ((_ :: _) as l) =>
                 (5 # 10) + (2 # 10) * Qmin (inject_Z (Z.of_nat (length l)) / 5) 1
             | _ => 5 # 10
             end) in *.
clearbody base boost. cbv zeta. rewrite <- Hfull. clear Hfull.
destruct (truthy (get answer "definition")),
  (truthy (get answer "explanation")),
  (truthy (get answer "example")), (truthy (get answer "pitfalls"));
  (split;
   [ intros Hone;
     match type of Hone with
     | Qmin ?c 1 == 1 =>
         destruct (Q.min_spec c 1) as [[Hlt Hmin]|[Hge Hmin]];
         rewrite Hmin in Hone
     end;
     repeat split; try reflexivity; try lra
   | intros (Hb & H1 & H2 & H3 & H4); try discriminate;
     apply Q.min_r; lra ]).
Qed.

(** X29: with no retrieved chunk the cap 0.85 of the pipeline never
    applies.  The composer's confidence without chunks is between 0.5 and
    0.8, so its product by 0.8 stays below 0.85: the response carries
    that product, which is at least 0.4. *)
Theorem no_material_confidence (context : AgentContext)
    (answer : gmap string json) :
  retrieved_chunks context = Some [] \/ retrieved_chunks context = None ->
  confidence context
  == _calculate_confidence answer (retrieved_chunks context) ->
  confidence context * (8 # 10) < 85 # 100 /\
  r_confidence (_format_response context) == confidence context * (8 # 10) /\
  4 # 10 <= r_confidence (_format_response context) /\
  r_confidence (_format_response context) < 85 # 100.
Proof.
intros Hnone Hconf.
assert (5 # 10 <= confidence context <= 8 # 10) as [Hlo Hhi].
{ rewrite !Hconf. unfold _calculate_confidence.
  assert (retrieved_chunks context = Some [] \/ retrieved_chunks context = None)
    as [-> | ->] by exact Hnone;
    cbv zeta;
    (split; [apply Q.min_glb|eapply Qle_trans; [apply Q.le_min_l|]]);
    destruct (truthy (get answer "definition")),
      (truthy (get answer "explanation")),
      (truthy (get answer "example")), (truthy (get answer "pitfalls")); lra. }
assert (r_confidence (_format_response context)
        = Qmin (confidence context * (8 # 10)) (85 # 100)) as Heq.
{ unfold _format_response. cbn [r_confidence].
  by destruct Hnone as [-> | ->]. }
rewrite Heq.
assert (Qmin (confidence context * (8 # 10)) (85 # 100)
        == confidence context * (8 # 10)) as Hmin by (apply Q.min_l; lra).
rewrite Hmin. split; [lra|]. split; [reflexivity|]. split; lra.
Qed.

Lemma no_material_confidence_witness :
  r_confidence (_format_response unanswered_context)
  == confidence unanswered_context * (8 # 10).
Proof.
refine (proj1 (proj2 (no_material_confidence unanswered_context
                 (<["definition" := JStr "a"]>
                    (<["explanation" := JStr "b"]>
                       (<["example" := JStr "c"]>
                          (<["pitfalls" := JArr [JStr "d"]]> ∅))))
                 (or_introl eq_refl) _))).
unfold _calculate_confidence, get, unanswered_context; simpl; reflexivity.
Defined.

Lemma fallback_answer_fields (content : string) :
  get (fallback_answer content) "definition" = JStr content /\
  get (fallback_answer content) "explanation" = JStr "" /\
  get (fallback_answer content) "example" = JStr "" /\
  get (fallback_answer content) "pitfalls" = JArr [].
Proof.
unfold get, fallback_answer.
repeat split;
  repeat (rewrite lookup_insert_ne by discriminate);
  by rewrite lookup_insert_eq.
Qed.

Section Process.
Variable json_loads : string -> option (gmap string json).

(** X30: when the completion is not valid JSON, the whole completion
    becomes the definition and the three other fields are empty, so the
    confidence is at most 0.8; without retrieved chunks it is 0.6 for a
    non-empty completion and 0.5 for an empty one. *)
Theorem fallback_answer_confidence {A : Type} (content : string)
    (chunks : option (list A)) :
  json_loads content = None ->
  structured_answer_of json_loads content !! "definition"
  = Some (JStr content) /\
  process_confidence json_loads content chunks <= 8 # 10 /\
  (chunks = None \/ chunks = Some [] ->
   process_confidence json_loads content chunks
   == if String.eqb content "" then 5 # 10 else 6 # 10).
Proof.
intros Hfail. unfold process_confidence, structured_answer_of.
rewrite Hfail. split; [reflexivity|].
destruct (fallback_answer_fields content) as (Hd & He & Hx & Hp).
unfold _calculate_confidence. rewrite Hd, He, Hx, Hp. simpl.
destruct (String.eqb content ""); simpl.
- split.
  + eapply Qle_trans; [apply Q.le_min_l|].
    destruct chunks as [[|x l]|]; try lra.
    pose proof (chunk_boost_range (length (x :: l))). lra.
  + intros [-> | ->]; rewrite Q.min_l by lra; lra.
- split.
  + eapply Qle_trans; [apply Q.le_min_l|].
    destruct chunks as [[|x l]|]; try lra.
    pose proof (chunk_boost_range (length (x :: l))). lra.
  + intros [-> | ->]; rewrite Q.min_l by lra; lra.
Qed.
End Process.

Lemma fallback_answer_confidence_witness :
  process_confidence (fun _ => None) "not json" (None : option (list nat))
  <= 8 # 10.
Proof.
apply (proj1 (proj2 (fallback_answer_confidence (fun _ => None) "not json"
                       (None : option (list nat)) eq_refl))).
Defined.

End PedagogyStageFacts.
